(** * dark-mode-svelte: the [DarkMode] class of [src/lib/dark-mode.svelte.ts]

    The class keeps two private fields, the explicit choice of the user
    ([#modeStore]) and the colour scheme the system reports
    ([#prefersStore]), and resolves them, together with a fixed default, to
    the mode shown.  Every method that touches the page goes through the
    globals [localStorage], [matchMedia] and [document], guarded by the
    [isBrowser] getter.  The embedding below keeps that shape: the instance
    is a record, the globals live in an environment record, and methods are
    computations in a state-and-exception monad over the environment. *)

From stdpp Require Import gmap strings.
From Stdlib Require Import Ascii String.

Local Open Scope string_scope.

(** ** Theme modes *)

(** ['light' | 'dark'] *)
Inductive Mode : Type := Light | Dark.

(** [type ThemeMode = 'light' | 'dark' | undefined] *)
Definition ThemeMode : Type := option Mode.

Global Instance Mode_eq_dec : EqDecision Mode.
Proof. solve_decision. Defined.

(** A mode is, at run time, the string that spells it. *)
Definition Mode_str (m : Mode) : string :=
  match m with Light => "light" | Dark => "dark" end.

(** ** The environment of the module *)

(** [document.documentElement]: its class list and the [colorScheme] entry
    of its inline style. *)
Record Element : Type := mkElement {
  classList : gset string;
  colorScheme : string
}.

(** The two flags imported from [esm-env] and the three globals the class
    reads.  A global that the host does not define is [None]; evaluating it
    raises a [ReferenceError].  [changeListeners] lists the media queries on
    which the instance has a ['change'] callback registered.

    Strings are JavaScript strings in their UTF-8 form: a character of the
    ASCII range is one byte below 128, any other character is a run of
    bytes from 128 up.  [hostLowerCase] is [String.prototype.toLowerCase]
    of the host on the strings that hold a character outside the ASCII
    range: what it gives follows the Unicode tables of the host, which are
    not part of the repository. *)
Record Env : Type := mkEnv {
  DEV : bool;
  BROWSER : bool;
  localStorage : option (gmap string string);
  matchMedia : option (string → bool);
  document : option Element;
  changeListeners : list string;
  hostLowerCase : string → string
}.

Definition with_localStorage (st : gmap string string) (env : Env) : Env :=
  mkEnv (DEV env) (BROWSER env) (Some st) (matchMedia env) (document env)
        (changeListeners env) (hostLowerCase env).

Definition with_document (el : Element) (env : Env) : Env :=
  mkEnv (DEV env) (BROWSER env) (localStorage env) (matchMedia env) (Some el)
        (changeListeners env) (hostLowerCase env).

Definition with_changeListeners (ls : list string) (env : Env) : Env :=
  mkEnv (DEV env) (BROWSER env) (localStorage env) (matchMedia env)
        (document env) ls (hostLowerCase env).

(** ** Computations that read and write the environment and may throw *)

Inductive Error : Type := ReferenceError (name : string).

Inductive Res (A : Type) : Type :=
  | Ok (a : A)
  | Throw (e : Error).
Arguments Ok {A} a.
Arguments Throw {A} e.

Definition M (A : Type) : Type := Env → Res (A * Env).

Global Instance M_ret : MRet M := λ A a env, Ok (a, env).
Global Instance M_bind : MBind M := λ A B f c env,
  match c env with
  | Ok (a, env') => f a env'
  | Throw e => Throw e
  end.

Definition throw {A} (e : Error) : M A := λ _, Throw e.
Definition get_env : M Env := λ env, Ok (env, env).
Definition put_env (env : Env) : M unit := λ _, Ok (tt, env).

(** Evaluating a global identifier. *)
Definition the_localStorage : M (gmap string string) :=
  env ← get_env;
  match localStorage env with
  | Some st => mret st
  | None => throw (ReferenceError "localStorage")
  end.

Definition the_matchMedia : M (string → bool) :=
  env ← get_env;
  match matchMedia env with
  | Some mm => mret mm
  | None => throw (ReferenceError "matchMedia")
  end.

Definition the_documentElement : M Element :=
  env ← get_env;
  match document env with
  | Some el => mret el
  | None => throw (ReferenceError "document")
  end.

(** [localStorage.getItem(key)], [null] being [None]. *)
Definition localStorage_getItem (key : string) : M (option string) :=
  st ← the_localStorage; mret (st !! key).

(** [localStorage.setItem(key, value)] *)
Definition localStorage_setItem (key value : string) : M unit :=
  st ← the_localStorage; env ← get_env;
  put_env (with_localStorage (<[key := value]> st) env).

(** [localStorage.removeItem(key)] *)
Definition localStorage_removeItem (key : string) : M unit :=
  st ← the_localStorage; env ← get_env;
  put_env (with_localStorage (delete key st) env).

(** [matchMedia(query).matches] *)
Definition matchMedia_matches (query : string) : M bool :=
  mm ← the_matchMedia; mret (mm query).

(** [matchMedia(query).addEventListener('change', cb)] for the callback of
    the instance. *)
Definition matchMedia_addChangeListener (query : string) : M unit :=
  _ ← the_matchMedia; env ← get_env;
  put_env (with_changeListeners (changeListeners env ++ [query]) env).

(** [document.documentElement.classList.toggle(token, force)] *)
Definition classList_toggle (token : string) (force : bool) : M unit :=
  el ← the_documentElement; env ← get_env;
  let cl := if force then {[token]} ∪ classList el
            else classList el ∖ {[token]} in
  put_env (with_document (mkElement cl (colorScheme el)) env).

(** [document.documentElement.style.colorScheme = value] *)
Definition style_set_colorScheme (value : string) : M unit :=
  el ← the_documentElement; env ← get_env;
  put_env (with_document (mkElement (classList el) value) env).

(** ** Strings: [String.prototype.toLowerCase] *)

(** The lower case of a character of the ASCII range: [A] to [Z] go to [a]
    to [z], the others stay. *)
Definition lower_ascii (c : ascii) : ascii :=
  let n := N_of_ascii c in
  if ((65 <=? n) && (n <=? 90))%N then ascii_of_N (n + 32) else c.

(** The lower case of a string of the ASCII range, character by
    character. *)
Fixpoint ascii_toLowerCase (s : string) : string :=
  match s with
  | EmptyString => EmptyString
  | String c r => String (lower_ascii c) (ascii_toLowerCase r)
  end.

(** Every character of the string is of the ASCII range. *)
Fixpoint is_ascii (s : string) : bool :=
  match s with
  | EmptyString => true
  | String c r => (N_of_ascii c <? 128)%N && is_ascii r
  end.

(** [s.toLowerCase()]: on a string of the ASCII range the lower case is
    the same on every host; on any other string it is the host's. *)
Definition toLowerCase (env : Env) (s : string) : string :=
  if is_ascii s then ascii_toLowerCase s else hostLowerCase env s.

(** Truthiness of a string: every string but the empty one. *)
Definition truthy (s : string) : bool :=
  match s with EmptyString => false | String _ _ => true end.

(** ** The class *)

Record DarkMode : Type := mkDarkMode {
  defaultMode : Mode;
  modeStore : ThemeMode;
  prefersStore : ThemeMode
}.

Definition set_modeStore (m : ThemeMode) (this : DarkMode) : DarkMode :=
  mkDarkMode (defaultMode this) m (prefersStore this).

Definition set_prefersStore (m : ThemeMode) (this : DarkMode) : DarkMode :=
  mkDarkMode (defaultMode this) (modeStore this) m.

Definition set_defaultMode (d : Mode) (this : DarkMode) : DarkMode :=
  mkDarkMode d (modeStore this) (prefersStore this).

Definition storageKey : string := "dark-mode".
Definition darkQuery : string := "(prefers-color-scheme: dark)".
Definition lightQuery : string := "(prefers-color-scheme: light)".

(** [a ?? b] with [b] possibly undefined, and with [b] defined. *)
Definition nullish_opt {A} (a b : option A) : option A :=
  match a with Some x => Some x | None => b end.
Definition nullish {A} (a : option A) (b : A) : A :=
  match a with Some x => x | None => b end.

(** [private get isBrowser()] *)
Definition isBrowser : M bool :=
  env ← get_env;
  if DEV env then mret true else mret (BROWSER env).

(** [public get mode()]: [#modeStore ?? #prefersStore ?? #defaultMode],
    the operator associating to the left. *)
Definition mode (this : DarkMode) : Mode :=
  nullish (nullish_opt (modeStore this) (prefersStore this)) (defaultMode this).

(** [private updateDOM()] *)
Definition updateDOM (this : DarkMode) : M unit :=
  b ← isBrowser;
  if negb b then mret tt
  else
    let isDark := bool_decide (mode this = Dark) in
    classList_toggle "dark" isDark;;
    style_set_colorScheme (if isDark then "dark" else "light").

(** [private load()] *)
Definition load : M ThemeMode :=
  b ← isBrowser;
  if negb b then mret None
  else
    localStoreItem ← localStorage_getItem storageKey;
    env ← get_env;
    match localStoreItem with
    | Some item =>
        if truthy item then
          let item := toLowerCase env item in
          if bool_decide (item = "light") then mret (Some Light)
          else if bool_decide (item = "dark") then mret (Some Dark)
          else mret None
        else mret None
    | None => mret None
    end.

(** [private store()] *)
Definition store (this : DarkMode) : M unit :=
  b ← isBrowser;
  if negb b then mret tt
  else
    match modeStore this with
    | Some m => localStorage_setItem storageKey (Mode_str m)
    | None => localStorage_removeItem storageKey
    end.

(** [private getPrefersMode()] *)
Definition getPrefersMode : M ThemeMode :=
  b ← isBrowser;
  if negb b then mret None
  else
    d ← matchMedia_matches darkQuery;
    if (d : bool) then mret (Some Dark)
    else
      l ← matchMedia_matches lightQuery;
      if (l : bool) then mret (Some Light) else mret None.

(** [private getInitialMode()] *)
Definition getInitialMode : M ThemeMode :=
  saved ← load;
  match saved with
  | Some Light => mret (Some Light)
  | Some Dark => mret (Some Dark)
  | None => mret None
  end.

(** [public set mode(mode)] *)
Definition set_mode (m : ThemeMode) (this : DarkMode) : M DarkMode :=
  let this := set_modeStore m this in
  updateDOM this;;
  store this;;
  mret this.

(** [public toggle()] *)
Definition toggle (this : DarkMode) : M DarkMode :=
  let this :=
    if bool_decide (modeStore this = Some Light) then
      set_modeStore (Some Dark) this
    else if bool_decide (modeStore this = Some Dark) then
      set_modeStore (Some Light) this
    else if bool_decide (modeStore this = None)
            && bool_decide (defaultMode this = Light) then
      set_modeStore (Some Dark) this
    else this in
  updateDOM this;;
  store this;;
  mret this.

(** The callback the constructor registers: it assigns
    [e.matches ? 'dark' : 'light'] to [#prefersStore] and calls
    [updateDOM]. *)
Definition on_change (e_matches : bool) (this : DarkMode) : M DarkMode :=
  let this :=
    set_prefersStore (Some (if e_matches then Dark else Light)) this in
  updateDOM this;;
  mret this.

(** [new DarkMode()]: the field initialisers in declaration order, then the
    body of the constructor. *)
Definition new_DarkMode : M DarkMode :=
  m ← getInitialMode;
  p ← getPrefersMode;
  let this := mkDarkMode Light m p in
  updateDOM this;;
  b ← isBrowser;
  if (b : bool) then matchMedia_addChangeListener darkQuery;; mret this
  else mret this.

(** The host delivers a ['change'] event of the dark query: the callback
    runs when it has been registered, nothing happens otherwise. *)
Definition dispatch_change (e_matches : bool) (this : DarkMode) : M DarkMode :=
  env ← get_env;
  if bool_decide (darkQuery ∈ changeListeners env)
  then on_change e_matches this
  else mret this.

(** ** Hosts *)

(** The guard the getter [isBrowser] computes. *)
Definition guard_open (env : Env) : bool := DEV env || BROWSER env.

(** A display context: the guard is open and the three globals exist. *)
Record display_context (env : Env) : Prop := mkDisplayContext {
  dc_guard : guard_open env = true;
  dc_storage : is_Some (localStorage env);
  dc_media : is_Some (matchMedia env);
  dc_document : is_Some (document env)
}.

(** No display context: none of the three globals exists. *)
Definition headless (env : Env) : Prop :=
  localStorage env = None ∧ matchMedia env = None ∧ document env = None.

(** The entry stored under the key of the class, [None] when there is no
    such entry (or no store). *)
Definition persisted (env : Env) : option string :=
  st ← localStorage env; st !! storageKey.

(** The root element carries the class token [dark]. *)
Definition root_has_dark (env : Env) : Prop :=
  ∃ el, document env = Some el ∧ "dark" ∈ classList el.

(** The [color-scheme] style of the root element. *)
Definition root_colorScheme (env : Env) : option string :=
  colorScheme <$> document env.

(** A media-query oracle answering the two queries of the class. *)
Definition media (prefersDark prefersLight : bool) : string → bool :=
  λ q, if bool_decide (q = darkQuery) then prefersDark
       else if bool_decide (q = lightQuery) then prefersLight
       else false.

(** The Kelvin sign, U+212A, in UTF-8. *)
Definition kelvin_sign : string :=
  String "226" (String "132" (String "170" EmptyString)).

(** A lower-casing for the hosts of the examples.  Of the Unicode table
    beyond the ASCII range it has the two characters whose lower case holds
    an ASCII letter: the Kelvin sign, which gives [k], and the capital I
    with a dot above, U+0130, which gives [i] and the combining dot U+0307.
    The table of a browser has many more entries. *)
Fixpoint sample_lowerCase (s : string) : string :=
  match s with
  | EmptyString => EmptyString
  | String "226" (String "132" (String "170" r)) =>
      String "k" (sample_lowerCase r)
  | String "196" (String "176" r) =>
      String "i" (String "204" (String "135" (sample_lowerCase r)))
  | String c r => String (lower_ascii c) (sample_lowerCase r)
  end.

(** A page in a browser build: store [st], the two media answers, a root
    element without classes or inline style, no listener yet. *)
Definition page (st : gmap string string) (prefersDark prefersLight : bool)
    : Env :=
  mkEnv false true (Some st) (Some (media prefersDark prefersLight))
        (Some (mkElement ∅ "")) [] sample_lowerCase.

(** A server process, in a development and in a production build. *)
Definition server_dev : Env :=
  mkEnv true false None None None [] sample_lowerCase.
Definition server_prod : Env :=
  mkEnv false false None None None [] sample_lowerCase.

(** An instance as the constructor leaves its default. *)
Definition instance (e p : ThemeMode) : DarkMode := mkDarkMode Light e p.

(** The other mode. *)
Definition opposite (m : Mode) : Mode :=
  match m with Light => Dark | Dark => Light end.

(** A run of the public interface after construction: assignments to
    [mode], calls of [toggle], and ['change'] events delivered by the host. *)
Inductive Op : Type :=
  | SetMode (m : ThemeMode)
  | Toggle
  | OsChange (e_matches : bool).

Definition step (o : Op) (this : DarkMode) : M DarkMode :=
  match o with
  | SetMode m => set_mode m this
  | Toggle => toggle this
  | OsChange b => dispatch_change b this
  end.

Fixpoint run (os : list Op) (this : DarkMode) : M DarkMode :=
  match os with
  | [] => mret this
  | o :: os' => this' ← step o this; run os' this'
  end.

Definition session (os : list Op) : M DarkMode :=
  this ← new_DarkMode; run os this.

(** An operation that writes the store. *)
Definition writes (o : Op) : bool :=
  match o with SetMode _ | Toggle => true | OsChange _ => false end.

(** ** What one call does to the page *)

(** The root element after [updateDOM] with resolved mode [m]. *)
Definition paint (m : Mode) (el : Element) : Element :=
  mkElement
    (if bool_decide (m = Dark) then {["dark"]} ∪ classList el
     else classList el ∖ {["dark"]})
    (if bool_decide (m = Dark) then "dark" else "light").

(** The store after [store] with explicit choice [e]. *)
Definition write (e : ThemeMode) (st : gmap string string)
    : gmap string string :=
  match e with
  | Some m => <[storageKey := Mode_str m]> st
  | None => delete storageKey st
  end.

(** The value [load] makes of what [getItem] returned. *)
Definition read (env : Env) (item : option string) : ThemeMode :=
  match item with
  | Some s =>
      if truthy s then
        if bool_decide (toLowerCase env s = "light") then Some Light
        else if bool_decide (toLowerCase env s = "dark") then Some Dark
        else None
      else None
  | None => None
  end.

(** The explicit choice after [toggle]. *)
Definition toggled (this : DarkMode) : ThemeMode :=
  match modeStore this with
  | Some m => Some (opposite m)
  | None => if bool_decide (defaultMode this = Light) then Some Dark else None
  end.

(** ** Derived notions used in the statements *)

(** The instance after [toggle]. *)
Definition flipped (this : DarkMode) : DarkMode :=
  match toggled this with
  | Some m => set_modeStore (Some m) this
  | None => this
  end.

(** The system preference [getPrefersMode] makes of a media-query oracle. *)
Definition prefers (mm : string → bool) : ThemeMode :=
  if mm darkQuery then Some Dark
  else if mm lightQuery then Some Light else None.

(** [toggle] as the specification words it: it stores the opposite of the
    resolved mode as the explicit choice. *)
Definition toggle_flips_resolved (this : DarkMode) (env : Env) : Prop :=
  ∃ this' env',
    toggle this env = Ok (this', env')
    ∧ modeStore this' = Some (opposite (mode this)).

(** Pairs of [toggle] as the specification words them: two in a row bring
    the getter back to where it was, and after the first one the store has
    an entry. *)
Definition toggle_twice_restores (this : DarkMode) (env : Env) : Prop :=
  ∃ s1 env1 s2 env2,
    toggle this env = Ok (s1, env1)
    ∧ toggle s1 env1 = Ok (s2, env2)
    ∧ mode s2 = mode this
    ∧ is_Some (persisted env1).

(** The system preference as the specification words it: dark alone gives
    dark, light alone gives light, neither and both give unset. *)
Definition spec_prefers (prefersDark prefersLight : bool) : ThemeMode :=
  match prefersDark, prefersLight with
  | true, false => Some Dark
  | false, true => Some Light
  | false, false | true, true => None
  end.

(** [getPrefersMode] answers by that mapping. *)
Definition prefers_as_specified (env : Env) : Prop :=
  ∀ mm, matchMedia env = Some mm →
    getPrefersMode env = Ok (spec_prefers (mm darkQuery) (mm lightQuery), env).

(** The entry under [dark-mode] spells the explicit choice, and is missing
    when there is none. *)
Definition persist_inv (this : DarkMode) (env : Env) : Prop :=
  persisted env = Mode_str <$> modeStore this.

(** The root element carries the class [dark] exactly in dark mode, and its
    [color-scheme] names the mode. *)
Definition dom_inv (this : DarkMode) (env : Env) : Prop :=
  (root_has_dark env ↔ mode this = Dark)
  ∧ root_colorScheme env
    = Some (match mode this with Dark => "dark" | Light => "light" end).

(** The character [c] is the letter written [lower] in lower case and
    [upper] in upper case. *)
Definition is_letter (lower upper c : ascii) : bool :=
  bool_decide (c = lower) || bool_decide (c = upper).

(** The string spells the token [light], each letter in either case. *)
Definition spells_light (s : string) : bool :=
  match s with
  | String c1 (String c2 (String c3 (String c4 (String c5 EmptyString)))) =>
      is_letter "l" "L" c1 && is_letter "i" "I" c2 && is_letter "g" "G" c3
      && is_letter "h" "H" c4 && is_letter "t" "T" c5
  | _ => false
  end.

(** The string spells the token [dark], each letter in either case. *)
Definition spells_dark (s : string) : bool :=
  match s with
  | String c1 (String c2 (String c3 (String c4 EmptyString))) =>
      is_letter "d" "D" c1 && is_letter "a" "A" c2 && is_letter "r" "R" c3
      && is_letter "k" "K" c4
  | _ => false
  end.

(** The read of the store as the specification words it, on strings of the
    ASCII range: the tokens [light] and [dark] are accepted in any case,
    everything else is no choice. *)
Definition spec_read (s : string) : ThemeMode :=
  if spells_light s then Some Light
  else if spells_dark s then Some Dark
  else None.

(** A host without display as the specification words it: applying to the
    display, reading the system preference and reading and writing the store
    do nothing, return unset and do not throw. *)
Definition degrades (env : Env) : Prop :=
  ∀ this,
    updateDOM this env = Ok (tt, env)
    ∧ getPrefersMode env = Ok (None, env)
    ∧ load env = Ok (None, env)
    ∧ store this env = Ok (tt, env).

(** ** Observations on the rest of the page *)

(** The entry of the store under a key, [None] when there is none. *)
Definition item (k : string) (env : Env) : option string :=
  st ← localStorage env; st !! k.

(** The root element carries the class token [t]. *)
Definition has_class (t : string) (env : Env) : Prop :=
  ∃ el, document env = Some el ∧ t ∈ classList el.

(** Two environments agree on the flags, on the media-query function, on
    every entry of the store but the one of the class, and on every class
    token of the root element but [dark]. *)
Definition same_elsewhere (env env' : Env) : Prop :=
  DEV env' = DEV env
  ∧ BROWSER env' = BROWSER env
  ∧ matchMedia env' = matchMedia env
  ∧ (∀ k, k ≠ storageKey → item k env' = item k env)
  ∧ (∀ t, t ≠ "dark" → has_class t env' ↔ has_class t env).

(** The error a call ends in, [None] when it returns. *)
Definition verdict {A} (r : Res (A * Env)) : option Error :=
  match r with Ok _ => None | Throw e => Some e end.

(** Two calls end alike: both throw the same error, or both return, with
    the same environment, the same explicit choice and the same resolved
    mode. *)
Definition same_outcome (r1 r2 : Res (DarkMode * Env)) : Prop :=
  match r1, r2 with
  | Ok (s1, env1), Ok (s2, env2) =>
      env1 = env2 ∧ modeStore s1 = modeStore s2 ∧ mode s1 = mode s2
  | Throw e1, Throw e2 => e1 = e2
  | _, _ => False
  end.

(** ** The media-query double of the unit tests *)

(** The class [MatchMediaMock] of [src/lib/dark-mode.spec.ts] replaces
    [window.matchMedia] in the unit tests.  Listeners are functions,
    compared by identity: any type [L] with decidable equality stands for
    them.

    The field [mediaQueries] is an object created as [{}].  It is modelled
    by the list of its own properties in the order [Object.entries] and
    [Object.keys] give them: the keys that are array indices first, in
    ascending order, then the other keys in order of creation.  Reading
    [mediaQueries[key]] finds an own property, or else what every object
    inherits from [Object.prototype], or else [undefined].

    [useMediaQuery] calls the listeners; the calls it makes are returned in
    order.  Listeners that reach back into the double while they run are
    not covered. *)
Module MatchMediaMock.

(** [MediaQueryListEvent], with the two fields the double fills in. *)
Record MediaQueryListEvent : Type := mkEvent {
  ev_matches : bool;
  ev_media : string
}.

(** The two private fields; [currentMediaQuery] has no initialiser. *)
Record t (L : Type) : Type := mk {
  mediaQueries : list (string * list L);
  currentMediaQuery : option string
}.
Arguments mk {L} _ _.
Arguments mediaQueries {L} _.
Arguments currentMediaQuery {L} _.

(** A method returns, or throws the [TypeError] of calling a method the
    value at hand does not have. *)
Inductive Outcome (A : Type) : Type :=
  | Returns (a : A)
  | ThrowsTypeError.
Arguments Returns {A} a.
Arguments ThrowsTypeError {A}.

(** The property names of [Object.prototype] (ECMA-262, its Annex B
    included).  Their values are functions, and the prototype itself for
    [__proto__]: all of them truthy, none with a method [indexOf] or
    [slice]. *)
Definition inherited_names : list string :=
  ["constructor"; "hasOwnProperty"; "isPrototypeOf"; "propertyIsEnumerable";
   "toLocaleString"; "toString"; "valueOf"; "__proto__";
   "__defineGetter__"; "__defineSetter__"; "__lookupGetter__";
   "__lookupSetter__"].

(** The number a string of decimal digits writes, [None] when a character
    is not a digit. *)
Fixpoint digits_value (s : string) (acc : N) : option N :=
  match s with
  | EmptyString => Some acc
  | String c r =>
      let n := N_of_ascii c in
      if ((48 <=? n) && (n <=? 57))%N
      then digits_value r (10 * acc + (n - 48))%N
      else None
  end.

(** The array index a key is: the number it writes in decimal, without
    leading zero, when that is below [2^32 - 1]. *)
Definition array_index (key : string) : option N :=
  match key with
  | EmptyString => None
  | String "0" EmptyString => Some 0%N
  | String "0" (String _ _) => None
  | String _ _ =>
      match digits_value key 0 with
      | Some n => if (n <? 4294967295)%N then Some n else None
      | None => None
      end
  end.

(** What reading [obj[key]] gives: the array of an own property, a value
    inherited from [Object.prototype], or [undefined]. *)
Inductive Value (L : Type) : Type :=
  | Own (array : list L)
  | Inherited
  | Undefined.
Arguments Own {L} array.
Arguments Inherited {L}.
Arguments Undefined {L}.

(** The own property [key] of the object. *)
Fixpoint own_key {L} (key : string) (obj : list (string * list L))
    : option (list L) :=
  match obj with
  | [] => None
  | (k, value) :: obj' =>
      if decide (k = key) then Some value else own_key key obj'
  end.

(** [obj[key]] *)
Definition get_key {L} (key : string) (obj : list (string * list L))
    : Value L :=
  match own_key key obj with
  | Some array => Own array
  | None => if decide (key ∈ inherited_names) then Inherited else Undefined
  end.

(** The own property [key] gets a new value, in place: what [push] and
    [splice] on the array [obj[key]] do to the object. *)
Fixpoint update_key {L} (key : string) (value : list L)
    (obj : list (string * list L)) : list (string * list L) :=
  match obj with
  | [] => []
  | (k, value0) :: obj' =>
      if decide (k = key) then (k, value) :: obj'
      else (k, value0) :: update_key key value obj'
  end.

(** A property whose key is the array index [n] is created: it goes before
    the first property whose key is a larger array index or no array
    index. *)
Fixpoint create_index {L} (n : N) (key : string) (value : list L)
    (obj : list (string * list L)) : list (string * list L) :=
  match obj with
  | [] => [(key, value)]
  | (k, value0) :: obj' =>
      match array_index k with
      | Some n0 =>
          if (n0 <? n)%N then (k, value0) :: create_index n key value obj'
          else (key, value) :: (k, value0) :: obj'
      | None => (key, value) :: (k, value0) :: obj'
      end
  end.

(** A property is created: among the array indices when its key is one,
    last otherwise. *)
Definition create_key {L} (key : string) (value : list L)
    (obj : list (string * list L)) : list (string * list L) :=
  match array_index key with
  | Some n => create_index n key value obj
  | None => obj ++ [(key, value)]
  end.

(** [obj[key] = value] *)
Definition assign_key {L} (key : string) (value : list L)
    (obj : list (string * list L)) : list (string * list L) :=
  match own_key key obj with
  | Some _ => update_key key value obj
  | None => create_key key value obj
  end.

(** [array.splice(array.indexOf(x), 1)] when [x] is in the array. *)
Fixpoint splice_first `{EqDecision L} (x : L) (array : list L) : list L :=
  match array with
  | [] => []
  | y :: array' =>
      if decide (y = x) then array' else y :: splice_first x array'
  end.

(** [new MatchMediaMock()] *)
Definition new {L} : t L := mk [] None.

(** [window.matchMedia(query).matches] *)
Definition matches {L} (query : string) (m : t L) : bool :=
  bool_decide (Some query = currentMediaQuery m).

(** [private addListener(mediaQuery, listener)]: on an inherited value, and
    on [undefined], [query.indexOf] is not a function. *)
Definition addListener `{EqDecision L} (mediaQuery : string) (listener : L)
    (m : t L) : Outcome (t L) :=
  let mqs :=
    match get_key mediaQuery (mediaQueries m) with
    | Undefined => assign_key mediaQuery [] (mediaQueries m)
    | Own _ | Inherited => mediaQueries m
    end in
  match get_key mediaQuery mqs with
  | Own query =>
      if decide (listener ∈ query) then Returns (mk mqs (currentMediaQuery m))
      else Returns (mk (assign_key mediaQuery (query ++ [listener]) mqs)
                       (currentMediaQuery m))
  | Inherited | Undefined => ThrowsTypeError
  end.

(** [private removeListener(mediaQuery, listener)] *)
Definition removeListener `{EqDecision L} (mediaQuery : string)
    (listener : L) (m : t L) : Outcome (t L) :=
  match get_key mediaQuery (mediaQueries m) with
  | Undefined => Returns m
  | Own query =>
      if decide (listener ∈ query) then
        Returns (mk (assign_key mediaQuery (splice_first listener query)
                       (mediaQueries m))
                    (currentMediaQuery m))
      else Returns m
  | Inherited => ThrowsTypeError
  end.

(** [matchMedia(query).addEventListener(type, listener)] *)
Definition addEventListener `{EqDecision L} (query type : string)
    (listener : L) (m : t L) : Outcome (t L) :=
  if decide (type = "change") then addListener query listener m
  else Returns m.

(** [matchMedia(query).removeEventListener(type, listener)] *)
Definition removeEventListener `{EqDecision L} (query type : string)
    (listener : L) (m : t L) : Outcome (t L) :=
  if decide (type = "change") then removeListener query listener m
  else Returns m.

(** [public useMediaQuery(mediaQuery)]: the double afterwards and the
    calls made, each a listener with the event handed to it. *)
Definition useMediaQuery {L} (mediaQuery : string) (m : t L)
    : t L * list (L * MediaQueryListEvent) :=
  let m := mk (mediaQueries m) (Some mediaQuery) in
  match mediaQueries m with
  | [] => (m, [])
  | _ :: _ =>
      let mqListEvent :=
        match get_key mediaQuery (mediaQueries m) with
        | Own _ | Inherited => mkEvent true mediaQuery
        | Undefined => mkEvent false mediaQuery
        end in
      (m, '(_, value) ← mediaQueries m;
          (λ listener, (listener, mqListEvent)) <$> value)
  end.

(** [public getMediaQueries()] *)
Definition getMediaQueries {L} (m : t L) : list string :=
  (mediaQueries m).*1.

(** [public getListeners(mediaQuery)]: on an inherited value [slice] is not
    a function. *)
Definition getListeners {L} (mediaQuery : string) (m : t L)
    : Outcome (list L) :=
  match get_key mediaQuery (mediaQueries m) with
  | Undefined => Returns []
  | Own query => Returns query
  | Inherited => ThrowsTypeError
  end.

(** [public clear()] *)
Definition clear {L} (m : t L) : t L := mk [] (Some "").

(** [public destroy()] *)
Definition destroy {L} (m : t L) : t L := clear m.

(** What a test does to the double between creating and destroying it. *)
Inductive Op (L : Type) : Type :=
  | Add (query type : string) (listener : L)
  | Remove (query type : string) (listener : L)
  | Use (mediaQuery : string)
  | Clear.
Arguments Add {L} _ _ _.
Arguments Remove {L} _ _ _.
Arguments Use {L} _.
Arguments Clear {L}.

(** The double after a call; a call that throws leaves it as it was. *)
Definition after {L} (m : t L) (r : Outcome (t L)) : t L :=
  match r with Returns m' => m' | ThrowsTypeError => m end.

Definition step `{EqDecision L} (o : Op L) (m : t L) : t L :=
  match o with
  | Add query type listener => after m (addEventListener query type listener m)
  | Remove query type listener =>
      after m (removeEventListener query type listener m)
  | Use mediaQuery => (useMediaQuery mediaQuery m).1
  | Clear => clear m
  end.

Definition run `{EqDecision L} (os : list (Op L)) (m : t L) : t L :=
  foldl (λ m o, step o m) m os.

(** The registry is well formed: no key twice, no listener twice under
    one key. *)
Definition registry_wf {L} (obj : list (string * list L)) : Prop :=
  NoDup obj.*1 ∧ ∀ key value, own_key key obj = Some value → NoDup value.

(** The keys are in the order of a JavaScript object: array indices first,
    ascending, then the keys that are not array indices. *)
Fixpoint js_ordered (keys : list string) : Prop :=
  match keys with
  | [] => True
  | k :: keys' =>
      js_ordered keys'
      ∧ match array_index k with
        | Some n =>
            ∀ k', k' ∈ keys' →
              match array_index k' with
              | Some n' => (n ≤ n')%N
              | None => True
              end
        | None => ∀ k', k' ∈ keys' → array_index k' = None
        end
  end.

(** What holds of the registry throughout a test: it is well formed, its
    keys are in the order of a JavaScript object, and no property name of
    [Object.prototype] is a key. *)
Definition registry_inv {L} (obj : list (string * list L)) : Prop :=
  registry_wf obj
  ∧ js_ordered obj.*1
  ∧ ∀ key, key ∈ inherited_names → key ∉ obj.*1.

End MatchMediaMock.

(** The page of a unit test: the media-query function is the double's. *)
Definition with_mock {L} (m : MatchMediaMock.t L) (env : Env) : Env :=
  mkEnv (DEV env) (BROWSER env) (localStorage env)
        (Some (λ query, MatchMediaMock.matches query m)) (document env)
        (changeListeners env) (hostLowerCase env).

(** * Calls, one at a time *)

Ltac exec :=
  cbv beta iota zeta delta
    [set_mode toggle on_change new_DarkMode dispatch_change step
     getInitialMode getPrefersMode load store updateDOM isBrowser
     localStorage_getItem localStorage_setItem localStorage_removeItem
     matchMedia_matches matchMedia_addChangeListener
     classList_toggle style_set_colorScheme
     the_localStorage the_matchMedia the_documentElement
     get_env put_env throw mbind M_bind mret M_ret
     with_localStorage with_document with_changeListeners
     guard_open paint write negb orb andb
     DEV BROWSER localStorage matchMedia document changeListeners
     hostLowerCase].

Ltac open_env env :=
  destruct env as [? ? ? ? ? ? ?]; unfold guard_open in *; cbn in *;
  simplify_eq.

(** *** With the guard closed *)

Ltac closed_guard env H :=
  open_env env; apply orb_false_iff in H as [-> ->]; exec.

Lemma isBrowser_run env : isBrowser env = Ok (guard_open env, env).
Proof. by destruct env as [[] [] ? ? ? ? ?]. Qed.

Lemma updateDOM_closed env this :
  guard_open env = false → updateDOM this env = Ok (tt, env).
Proof. intros H. by closed_guard env H. Qed.

Lemma store_closed env this :
  guard_open env = false → store this env = Ok (tt, env).
Proof. intros H. by closed_guard env H. Qed.

Lemma load_closed env :
  guard_open env = false → load env = Ok (None, env).
Proof. intros H. by closed_guard env H. Qed.

Lemma getPrefersMode_closed env :
  guard_open env = false → getPrefersMode env = Ok (None, env).
Proof. intros H. by closed_guard env H. Qed.

Lemma set_mode_closed env m this :
  guard_open env = false →
  set_mode m this env = Ok (set_modeStore m this, env).
Proof. intros H. by closed_guard env H. Qed.

Lemma toggle_closed env this :
  guard_open env = false →
  toggle this env = Ok (flipped this, env).
Proof.
  intros H. destruct this as [[] [[]|] p]; by closed_guard env H.
Qed.

Lemma on_change_closed env b this :
  guard_open env = false →
  on_change b this env
  = Ok (set_prefersStore (Some (if b then Dark else Light)) this, env).
Proof. intros H. by closed_guard env H. Qed.

Lemma new_DarkMode_closed env :
  guard_open env = false → new_DarkMode env = Ok (instance None None, env).
Proof. intros H. by closed_guard env H. Qed.

(** *** With the guard open and the globals in place *)

Ltac open_guard env :=
  destruct env as [[] [] ? ? ? ? ?]; unfold guard_open in *; cbn in *;
  simplify_eq; exec.

Lemma updateDOM_open env this el :
  guard_open env = true → document env = Some el →
  updateDOM this env = Ok (tt, with_document (paint (mode this) el) env).
Proof. intros H ?. open_guard env; by case_bool_decide. Qed.

Lemma store_open env this st :
  guard_open env = true → localStorage env = Some st →
  store this env = Ok (tt, with_localStorage (write (modeStore this) st) env).
Proof. intros H ?. open_guard env; by destruct (modeStore this). Qed.

Lemma load_open env st :
  guard_open env = true → localStorage env = Some st →
  load env = Ok (read env (st !! storageKey), env).
Proof.
  intros H ?. unfold read. open_guard env;
    destruct (st !! storageKey) as [s|]; try done;
    destruct (truthy s); try done; by repeat case_bool_decide.
Qed.

Lemma getPrefersMode_open env mm :
  guard_open env = true → matchMedia env = Some mm →
  getPrefersMode env
  = Ok (if mm darkQuery then Some Dark
        else if mm lightQuery then Some Light else None, env).
Proof.
  intros H ?. open_guard env;
    destruct (mm darkQuery); try done; by destruct (mm lightQuery).
Qed.

Lemma set_mode_open env m this st el :
  guard_open env = true → localStorage env = Some st → document env = Some el →
  set_mode m this env
  = Ok (set_modeStore m this,
        with_localStorage (write m st)
          (with_document (paint (mode (set_modeStore m this)) el) env)).
Proof.
  intros H ? ?. open_guard env; case_bool_decide; by destruct m.
Qed.

Lemma toggle_open env this st el :
  guard_open env = true → localStorage env = Some st → document env = Some el →
  toggle this env
  = Ok (flipped this,
        with_localStorage (write (modeStore (flipped this)) st)
          (with_document (paint (mode (flipped this)) el) env)).
Proof.
  intros H ? ?. destruct this as [[] [[]|] [[]|]]; by open_guard env.
Qed.

Lemma on_change_open env (b : bool) this el :
  guard_open env = true → document env = Some el →
  let next := set_prefersStore (Some (if b then Dark else Light)) this in
  on_change b this env = Ok (next, with_document (paint (mode next) el) env).
Proof.
  intros H ?. cbn zeta. open_guard env; by case_bool_decide.
Qed.

Lemma new_DarkMode_open env st mm el :
  guard_open env = true →
  localStorage env = Some st → matchMedia env = Some mm →
  document env = Some el →
  let this := mkDarkMode Light (read env (st !! storageKey)) (prefers mm) in
  new_DarkMode env
  = Ok (this,
        with_changeListeners (changeListeners env ++ [darkQuery])
          (with_document (paint (mode this) el) env)).
Proof.
  intros H ? ? ?. cbn zeta. unfold read, prefers, mode.
  open_guard env;
    destruct (st !! storageKey) as [s|]; cbn;
    try (destruct (truthy s); cbn); repeat (case_bool_decide; cbn);
    destruct (mm darkQuery); cbn; try destruct (mm lightQuery); cbn;
    try done; by repeat case_bool_decide.
Qed.

(** *** Observations on the environment a call leaves *)

Lemma persisted_with_localStorage st env :
  persisted (with_localStorage st env) = st !! storageKey.
Proof. done. Qed.

Lemma persisted_with_document el env :
  persisted (with_document el env) = persisted env.
Proof. done. Qed.

Lemma persisted_with_changeListeners ls env :
  persisted (with_changeListeners ls env) = persisted env.
Proof. done. Qed.

Lemma persisted_write e st :
  write e st !! storageKey = Mode_str <$> e.
Proof.
  destruct e; cbn; [apply lookup_insert_eq | apply lookup_delete_eq].
Qed.

Lemma dark_in_paint m el : "dark" ∈ classList (paint m el) ↔ m = Dark.
Proof.
  destruct m; cbn; split; try done.
  - intros [_ Hn]%elem_of_difference. by destruct Hn; apply elem_of_singleton.
  - intros _. apply elem_of_union_l. by apply elem_of_singleton.
Qed.

Lemma colorScheme_paint m el : colorScheme (paint m el) = Mode_str m.
Proof. by destruct m. Qed.

Lemma display_context_with_localStorage st env :
  display_context env → display_context (with_localStorage st env).
Proof. intros []. by split. Qed.

Lemma display_context_with_document el env :
  display_context env → display_context (with_document el env).
Proof. intros []. by split. Qed.

Lemma display_context_with_changeListeners ls env :
  display_context env → display_context (with_changeListeners ls env).
Proof. intros []. by split. Qed.

Lemma page_display_context st d l : display_context (page st d l).
Proof. by split. Qed.

Create HintDb host discriminated.
#[global] Hint Resolve display_context_with_localStorage
  display_context_with_document display_context_with_changeListeners
  page_display_context : host.

(** * Resolution of the mode *)

(** C1. For every explicit choice and every system preference, each light,
    dark or unset, the getter [mode] returns the explicit choice when there
    is one, else the system preference when there is one, else the default
    [light]; the value is one of the two modes, never undefined. *)
Theorem mode_precedence (e p : ThemeMode) :
  mode (instance e p)
  = match e with
    | Some m => m
    | None => match p with Some m => m | None => Light end
    end
  ∧ (mode (instance e p) = Light ∨ mode (instance e p) = Dark).
Proof.
  split.
  - by destruct e, p.
  - destruct (mode (instance e p)); auto.
Qed.

(** The default never changes: the constructor sets it to [light] and no
    method assigns it. *)
Lemma bind_Ok_inv {A B} (c : M A) (f : A → M B) env r :
  (c ≫= f) env = Ok r → ∃ a env1, c env = Ok (a, env1) ∧ f a env1 = Ok r.
Proof.
  unfold mbind, M_bind. destruct (c env) as [[a env1]|]; [eauto | done].
Qed.

Lemma then_mret_inv {A} (c1 c2 : M unit) (a a' : A) env env' :
  (c1;; c2;; mret a) env = Ok (a', env') → a' = a.
Proof.
  intros (_ & ? & _ & (_ & ? & _ & Hret)%bind_Ok_inv)%bind_Ok_inv.
  by injection Hret.
Qed.

Lemma step_defaultMode o this env this' env' :
  step o this env = Ok (this', env') → defaultMode this' = defaultMode this.
Proof.
  destruct o as [m| |b]; cbn [step].
  - intros ->%then_mret_inv. done.
  - intros ->%then_mret_inv. by repeat case_match.
  - intros (env0 & ? & _ & Hrun)%bind_Ok_inv. case_match.
    + apply bind_Ok_inv in Hrun as (_ & ? & _ & Hret). by injection Hret as <-.
    + by injection Hrun as <-.
Qed.

(** * Toggle *)

(** With no explicit choice and a system that prefers dark, the resolved
    mode is dark and [toggle] stores dark, not light. *)
Lemma toggle_unset_os_dark_stores_dark :
  mode (instance None (Some Dark)) = Dark
  ∧ (∃ env', toggle (instance None (Some Dark)) (page ∅ true false)
             = Ok (instance (Some Dark) (Some Dark), env'))
  ∧ ¬ toggle_flips_resolved (instance None (Some Dark)) (page ∅ true false).
Proof.
  split; [done|]. split.
  - eexists. by erewrite toggle_open.
  - intros (this' & env' & Hrun & Hstore).
    erewrite toggle_open in Hrun by done. by simplify_eq.
Qed.

(** C2, amended. In a display context [toggle] stores the opposite of the
    explicit choice, and the opposite of the default ([light], hence dark)
    when there is no explicit choice, whatever the system prefers; the
    explicit choice is never unset afterwards.  This is the opposite of the
    resolved mode in every starting state but one: no explicit choice and a
    system preference of dark. *)
Theorem toggle_flips_choice_or_default (e p : ThemeMode) (env : Env) :
  display_context env →
  ∃ this' env',
    toggle (instance e p) env = Ok (this', env')
    ∧ modeStore this' = Some (opposite (nullish e Light))
    ∧ modeStore this' ≠ None
    ∧ ((e = None → p ≠ Some Dark) →
       modeStore this' = Some (opposite (mode (instance e p)))).
Proof.
  intros [Hg [st Hst] _ [el Hel]].
  eexists _, _. split; [by eapply toggle_open|].
  destruct e as [[]|], p as [[]|]; cbn; naive_solver.
Qed.

Lemma toggle_flips_choice_or_default_witness :
  display_context (page ∅ true false)
  ∧ ∃ this' env',
      toggle (instance None (Some Dark)) (page ∅ true false) = Ok (this', env')
      ∧ modeStore this' = Some (opposite (nullish None Light))
      ∧ modeStore this' ≠ None
      ∧ ((@None Mode = None → Some Dark ≠ Some Dark) →
         modeStore this'
         = Some (opposite (mode (instance None (Some Dark))))).
Proof.
  assert (display_context (page ∅ true false)) as Hpage.
  { split; [reflexivity | eexists; reflexivity ..]. }
  split; [exact Hpage|].
  exact (toggle_flips_choice_or_default None (Some Dark) _ Hpage).
Defined.

(** From no explicit choice and a system that prefers dark, the getter
    reads dark, dark again after one [toggle], and light after two. *)
Lemma toggle_twice_unset_os_dark :
  ¬ toggle_twice_restores (instance None (Some Dark)) (page ∅ true false).
Proof.
  intros (s1 & env1 & s2 & env2 & H1 & H2 & Hmode & _).
  erewrite toggle_open in H1 by done. simplify_eq.
  erewrite toggle_open in H2 by done. by simplify_eq.
Qed.

(** C3, amended. In a display context two [toggle]s in a row bring the
    getter back to its value from every starting state but one, and after
    the first the store has an entry; from no explicit choice with a system
    preference of dark the getter reads dark before, dark after one and
    light after two. *)
Theorem toggle_twice (e p : ThemeMode) (env : Env) :
  display_context env →
  ∃ s1 env1 s2 env2,
    toggle (instance e p) env = Ok (s1, env1)
    ∧ toggle s1 env1 = Ok (s2, env2)
    ∧ is_Some (persisted env1)
    ∧ ((e = None → p ≠ Some Dark) → mode s2 = mode (instance e p))
    ∧ (e = None → p = Some Dark →
       mode (instance e p) = Dark ∧ mode s1 = Dark ∧ mode s2 = Light).
Proof.
  intros [Hg [st Hst] _ [el Hel]].
  eexists _, _, _, _. split; [by eapply toggle_open|].
  split; [by eapply toggle_open|].
  rewrite persisted_with_localStorage, persisted_write.
  destruct e as [[]|], p as [[]|]; cbn; naive_solver.
Qed.

Lemma toggle_twice_witness :
  display_context (page ∅ false true)
  ∧ ∃ s1 env1 s2 env2,
      toggle (instance None (Some Light)) (page ∅ false true) = Ok (s1, env1)
      ∧ toggle s1 env1 = Ok (s2, env2)
      ∧ is_Some (persisted env1)
      ∧ ((@None Mode = None → Some Light ≠ Some Dark) →
         mode s2 = mode (instance None (Some Light)))
      ∧ (@None Mode = None → Some Light = Some Dark →
         mode (instance None (Some Light)) = Dark
         ∧ mode s1 = Dark ∧ mode s2 = Light).
Proof.
  assert (display_context (page ∅ false true)) as Hpage.
  { split; [reflexivity | eexists; reflexivity ..]. }
  split; [exact Hpage|].
  exact (toggle_twice None (Some Light) _ Hpage).
Defined.

(** * Reading the system preference *)

(** When both queries match, [getPrefersMode] answers dark: the dark query
    is asked first and the light one not at all. *)
Lemma getPrefersMode_both_match :
  getPrefersMode (page ∅ true true) = Ok (Some Dark, page ∅ true true)
  ∧ spec_prefers true true = None
  ∧ ¬ prefers_as_specified (page ∅ true true).
Proof.
  split; [done|]. split; [done|].
  intros Hspec. by specialize (Hspec _ eq_refl).
Qed.

(** C4, amended. With the guard open, [getPrefersMode] answers dark when the
    dark query matches, whatever the light query says; light when only the
    light query matches; unset when neither does.  It leaves the
    environment as it was, and agrees with the mapping of the specification
    unless both queries match. *)
Theorem getPrefersMode_dark_first (env : Env) (mm : string → bool) :
  guard_open env = true →
  matchMedia env = Some mm →
  getPrefersMode env
  = Ok (match mm darkQuery, mm lightQuery with
        | true, _ => Some Dark
        | false, true => Some Light
        | false, false => None
        end, env)
  ∧ (mm darkQuery && mm lightQuery = false →
     getPrefersMode env
     = Ok (spec_prefers (mm darkQuery) (mm lightQuery), env)).
Proof.
  intros Hg Hmm. rewrite (getPrefersMode_open _ _ Hg Hmm).
  by destruct (mm darkQuery), (mm lightQuery).
Qed.

Lemma getPrefersMode_dark_first_witness :
  guard_open (page ∅ false true) = true
  ∧ matchMedia (page ∅ false true) = Some (media false true)
  ∧ getPrefersMode (page ∅ false true)
    = Ok (match media false true darkQuery, media false true lightQuery with
          | true, _ => Some Dark
          | false, true => Some Light
          | false, false => None
          end, page ∅ false true)
  ∧ (media false true darkQuery && media false true lightQuery = false →
     getPrefersMode (page ∅ false true)
     = Ok (spec_prefers (media false true darkQuery)
             (media false true lightQuery), page ∅ false true)).
Proof.
  split; [reflexivity|]. split; [reflexivity|].
  apply (getPrefersMode_dark_first (page ∅ false true) (media false true));
    reflexivity.
Defined.

(** * Runs in a display context *)

Lemma dispatch_change_unfold b this env :
  dispatch_change b this env
  = if bool_decide (darkQuery ∈ changeListeners env) then on_change b this env
    else Ok (this, env).
Proof. unfold dispatch_change, get_env, mbind, M_bind. by case_bool_decide. Qed.

(** An invariant every step keeps in a display context holds at the end of
    every run, and every run comes to an end there. *)
Lemma run_invariant (I : DarkMode → Env → Prop) :
  (∀ o this env, display_context env → I this env →
     ∃ this' env', step o this env = Ok (this', env')
                   ∧ display_context env' ∧ I this' env') →
  ∀ os this env, display_context env → I this env →
    ∃ this' env', run os this env = Ok (this', env')
                  ∧ display_context env' ∧ I this' env'.
Proof.
  intros Hstep os. induction os as [|o os IH]; intros this env Hdc HI.
  - by exists this, env.
  - destruct (Hstep o this env Hdc HI) as (s1 & env1 & Hrun & Hdc1 & HI1).
    destruct (IH s1 env1 Hdc1 HI1) as (s2 & env2 & Hrun2 & ?).
    exists s2, env2. split; [|done].
    cbn [run]. unfold mbind, M_bind. by rewrite Hrun.
Qed.

(** What one step leaves behind in a display context. *)
Lemma step_open o this env :
  display_context env →
  ∃ this' env' st el,
    step o this env = Ok (this', env')
    ∧ display_context env'
    ∧ changeListeners env' = changeListeners env
    ∧ prefersStore this'
      = (match o with
         | OsChange b =>
             if bool_decide (darkQuery ∈ changeListeners env)
             then Some (if b then Dark else Light) else prefersStore this
         | _ => prefersStore this
         end)
    ∧ match o with
      | OsChange b =>
          modeStore this' = modeStore this
          ∧ localStorage env' = localStorage env
          ∧ if bool_decide (darkQuery ∈ changeListeners env)
            then document env' = Some (paint (mode this') el)
            else this' = this ∧ env' = env
      | _ =>
          localStorage env' = Some (write (modeStore this') st)
          ∧ document env' = Some (paint (mode this') el)
      end.
Proof.
  intros Hdc. pose proof Hdc as [Hg [st Hst] _ [el Hel]].
  destruct o as [m| |b]; cbn [step].
  - eexists _, _, st, el. rewrite (set_mode_open _ _ _ _ _ Hg Hst Hel).
    split; [done|]. split; [auto with host|]. done.
  - eexists _, _, st, el. rewrite (toggle_open _ _ _ _ Hg Hst Hel).
    split; [done|]. split; [auto with host|].
    split; [done|]. split; [|done]. by destruct this as [[] [[]|] ?].
  - rewrite dispatch_change_unfold. case_bool_decide.
    + eexists _, _, st, el. rewrite (on_change_open _ _ _ _ Hg Hel).
      split; [done|]. split; [auto with host|]. done.
    + by exists this, env, st, el.
Qed.

Lemma session_unfold os env this env0 :
  new_DarkMode env = Ok (this, env0) → session os env = run os this env0.
Proof. intros H. unfold session, mbind, M_bind. by rewrite H. Qed.

Lemma persisted_of_localStorage env st :
  localStorage env = Some st → persisted env = st !! storageKey.
Proof. unfold persisted. by intros ->. Qed.

(** * The store follows the explicit choice *)

(** The constructor reads the store and never writes it: an entry [DARK]
    is taken for dark and stays in upper case; an entry [invalid] is taken
    for no choice and stays where it is. *)
Lemma construction_keeps_entry :
  (∃ this env',
     new_DarkMode (page {[storageKey := "DARK"]} false false) = Ok (this, env')
     ∧ modeStore this = Some Dark
     ∧ persisted env' = Some "DARK"
     ∧ ¬ persist_inv this env')
  ∧ (∃ this env',
       new_DarkMode (page {[storageKey := "invalid"]} false false)
       = Ok (this, env')
       ∧ modeStore this = None
       ∧ persisted env' = Some "invalid"
       ∧ ¬ persist_inv this env').
Proof.
  split; eexists _, _; (split; [by eapply new_DarkMode_open|]);
    unfold persist_inv; cbn [modeStore];
    rewrite persisted_with_changeListeners, persisted_with_document;
    unfold persisted; cbn [localStorage page mbind option_bind];
    rewrite lookup_singleton_eq; done.
Qed.

Lemma step_persist o this env :
  display_context env →
  ∃ this' env',
    step o this env = Ok (this', env')
    ∧ display_context env'
    ∧ (writes o = true → persist_inv this' env')
    ∧ (persist_inv this env → persist_inv this' env').
Proof.
  intros Hdc.
  destruct (step_open o this env Hdc)
    as (this' & env' & st & el & Hrun & Hdc' & _ & _ & Heff).
  exists this', env'. split; [done|]. split; [done|]. unfold persist_inv.
  destruct o as [m| |b].
  - destruct Heff as [Hst _].
    rewrite (persisted_of_localStorage _ _ Hst), persisted_write. done.
  - destruct Heff as [Hst _].
    rewrite (persisted_of_localStorage _ _ Hst), persisted_write. done.
  - destruct Heff as (-> & Hst & _). unfold persisted. rewrite Hst. done.
Qed.

Lemma run_persist os : ∀ this env,
  display_context env →
  ∃ this' env',
    run os this env = Ok (this', env')
    ∧ (persist_inv this env ∨ existsb writes os = true →
       persist_inv this' env').
Proof.
  induction os as [|o os IH]; intros this env Hdc.
  - exists this, env. split; [done|]. by intros [?|?].
  - destruct (step_persist o this env Hdc)
      as (s1 & env1 & Hrun & Hdc1 & Hw & Hkeep).
    destruct (IH s1 env1 Hdc1) as (s2 & env2 & Hrun2 & Hend).
    exists s2, env2. split.
    + cbn [run]. unfold mbind, M_bind. by rewrite Hrun.
    + cbn [existsb]. intros [?|[?|?]%orb_true_iff]; auto.
Qed.

(** C5, amended. In a display context, once [mode] has been assigned or
    [toggle] called, the entry under [dark-mode] is the lower-case token of
    the explicit choice, and is missing exactly when there is none;
    notifications of the system leave it alone.  The constructor does not
    write the store, so before the first such call this holds when the
    entry it found was missing, [light] or [dark]. *)
Theorem store_follows_choice (env : Env) (os : list Op) :
  display_context env →
  ∃ this env',
    session os env = Ok (this, env')
    ∧ (persisted env = None ∨ persisted env = Some "light"
       ∨ persisted env = Some "dark" ∨ existsb writes os = true →
       persisted env' = Mode_str <$> modeStore this
       ∧ (persisted env' = None ↔ modeStore this = None)).
Proof.
  intros Hdc. pose proof Hdc as [Hg [st Hst] [mm Hmm] [el Hel]].
  pose proof (new_DarkMode_open _ _ _ _ Hg Hst Hmm Hel) as Hnew.
  cbn zeta in Hnew. rewrite (session_unfold _ _ _ _ Hnew).
  edestruct run_persist as (this & env' & -> & Hend);
    [eauto with host|].
  exists this, env'. split; [done|]. intros Hpre.
  assert (persist_inv this env') as Hinv.
  { apply Hend. unfold persist_inv.
    rewrite persisted_with_changeListeners, persisted_with_document.
    rewrite (persisted_of_localStorage _ _ Hst) in *. cbn [modeStore].
    destruct Hpre as [->|[->|[->|?]]]; auto. }
  split; [done|]. rewrite Hinv. by destruct (modeStore this).
Qed.

Lemma store_follows_choice_witness :
  display_context (page {[storageKey := "DARK"]} true false)
  ∧ ∃ this env',
      session [OsChange false; Toggle]
        (page {[storageKey := "DARK"]} true false) = Ok (this, env')
      ∧ (persisted (page {[storageKey := "DARK"]} true false) = None
         ∨ persisted (page {[storageKey := "DARK"]} true false) = Some "light"
         ∨ persisted (page {[storageKey := "DARK"]} true false) = Some "dark"
         ∨ existsb writes [OsChange false; Toggle] = true →
         persisted env' = Mode_str <$> modeStore this
         ∧ (persisted env' = None ↔ modeStore this = None)).
Proof.
  split.
  - split; [reflexivity | eexists; reflexivity ..].
  - apply store_follows_choice.
    split; [reflexivity | eexists; reflexivity ..].
Defined.

(** * The root element follows the resolved mode *)

Lemma dom_inv_paint this env el :
  document env = Some (paint (mode this) el) → dom_inv this env.
Proof.
  intros Hdoc. unfold dom_inv, root_has_dark, root_colorScheme.
  rewrite Hdoc. split.
  - split.
    + intros (el' & Heq & Hin). injection Heq as <-.
      by apply dark_in_paint in Hin.
    + intros Hd. exists (paint (mode this) el).
      split; [done | by apply dark_in_paint].
  - cbn. by destruct (mode this).
Qed.

Lemma step_dom o this env :
  display_context env → dom_inv this env →
  ∃ this' env',
    step o this env = Ok (this', env')
    ∧ display_context env' ∧ dom_inv this' env'.
Proof.
  intros Hdc Hinv.
  destruct (step_open o this env Hdc)
    as (this' & env' & st & el & Hrun & Hdc' & _ & _ & Heff).
  exists this', env'. split; [done|]. split; [done|].
  destruct o as [m| |b].
  - destruct Heff as [_ Hdoc]. by eapply dom_inv_paint.
  - destruct Heff as [_ Hdoc]. by eapply dom_inv_paint.
  - destruct Heff as (_ & _ & Hdoc). case_bool_decide.
    + by eapply dom_inv_paint.
    + by destruct Hdoc as [-> ->].
Qed.

(** C6. In a display context, after construction and after every
    assignment to [mode], call of [toggle] and notification of the system,
    the root element carries the class token [dark] if and only if the
    resolved mode is dark, and its [color-scheme] is the string [dark] in
    dark mode and [light] otherwise; each call returns with the element
    already updated. *)
Theorem root_follows_mode (env : Env) (os : list Op) :
  display_context env →
  ∃ this env',
    session os env = Ok (this, env')
    ∧ (root_has_dark env' ↔ mode this = Dark)
    ∧ root_colorScheme env'
      = Some (match mode this with Dark => "dark" | Light => "light" end).
Proof.
  intros Hdc. pose proof Hdc as [Hg [st Hst] [mm Hmm] [el Hel]].
  pose proof (new_DarkMode_open _ _ _ _ Hg Hst Hmm Hel) as Hnew.
  cbn zeta in Hnew. rewrite (session_unfold _ _ _ _ Hnew).
  edestruct (run_invariant dom_inv step_dom os) as (this & env' & -> & _ & ?);
    [eauto with host | by eapply dom_inv_paint | by exists this, env'].
Qed.

Lemma root_follows_mode_witness :
  display_context (page ∅ false true)
  ∧ ∃ this env',
      session [Toggle; OsChange true; SetMode None] (page ∅ false true)
      = Ok (this, env')
      ∧ (root_has_dark env' ↔ mode this = Dark)
      ∧ root_colorScheme env'
        = Some (match mode this with Dark => "dark" | Light => "light" end).
Proof.
  split.
  - split; [reflexivity | eexists; reflexivity ..].
  - apply root_follows_mode.
    split; [reflexivity | eexists; reflexivity ..].
Defined.

(** * Reading the store *)

(** The lower case of an ASCII character is a given lower-case letter
    exactly for that letter and its capital. *)
Ltac by_character c :=
  destruct c as [[] [] [] [] [] [] [] []]; reflexivity.

Lemma lower_ascii_l c : bool_decide (lower_ascii c = "l"%char) = is_letter "l" "L" c.
Proof. by_character c. Qed.
Lemma lower_ascii_i c : bool_decide (lower_ascii c = "i"%char) = is_letter "i" "I" c.
Proof. by_character c. Qed.
Lemma lower_ascii_g c : bool_decide (lower_ascii c = "g"%char) = is_letter "g" "G" c.
Proof. by_character c. Qed.
Lemma lower_ascii_h c : bool_decide (lower_ascii c = "h"%char) = is_letter "h" "H" c.
Proof. by_character c. Qed.
Lemma lower_ascii_t c : bool_decide (lower_ascii c = "t"%char) = is_letter "t" "T" c.
Proof. by_character c. Qed.
Lemma lower_ascii_d c : bool_decide (lower_ascii c = "d"%char) = is_letter "d" "D" c.
Proof. by_character c. Qed.
Lemma lower_ascii_a c : bool_decide (lower_ascii c = "a"%char) = is_letter "a" "A" c.
Proof. by_character c. Qed.
Lemma lower_ascii_r c : bool_decide (lower_ascii c = "r"%char) = is_letter "r" "R" c.
Proof. by_character c. Qed.
Lemma lower_ascii_k c : bool_decide (lower_ascii c = "k"%char) = is_letter "k" "K" c.
Proof. by_character c. Qed.

Lemma bool_decide_String (a b : ascii) (s t : string) :
  bool_decide (String a s = String b t)
  = bool_decide (a = b) && bool_decide (s = t).
Proof. repeat case_bool_decide; simplify_eq; done. Qed.

Ltac by_letters :=
  rewrite ?bool_decide_String, ?lower_ascii_l, ?lower_ascii_i, ?lower_ascii_g,
    ?lower_ascii_h, ?lower_ascii_t, ?lower_ascii_d, ?lower_ascii_a,
    ?lower_ascii_r, ?lower_ascii_k;
  repeat match goal with
    | |- context [bool_decide (?a = ?b)] =>
        first [rewrite (bool_decide_eq_false_2 (a = b)) by done
              |rewrite (bool_decide_eq_true_2 (a = b)) by done]
    end;
  rewrite ?andb_true_r, ?andb_false_r, ?andb_assoc; done.

Lemma ascii_toLowerCase_light s :
  bool_decide (ascii_toLowerCase s = "light") = spells_light s.
Proof.
  destruct s as [|c1 [|c2 [|c3 [|c4 [|c5 [|c6 r]]]]]];
    cbn [ascii_toLowerCase spells_light]; by_letters.
Qed.

Lemma ascii_toLowerCase_dark s :
  bool_decide (ascii_toLowerCase s = "dark") = spells_dark s.
Proof.
  destruct s as [|c1 [|c2 [|c3 [|c4 [|c5 r]]]]];
    cbn [ascii_toLowerCase spells_dark]; by_letters.
Qed.

(** What [load] makes of a string, by the lower case of the string. *)
Lemma read_Some env s :
  read env (Some s)
  = if bool_decide (toLowerCase env s = "light") then Some Light
    else if bool_decide (toLowerCase env s = "dark") then Some Dark
    else None.
Proof.
  unfold read. destruct s as [|c s]; [|done]. cbn [truthy].
  unfold toLowerCase. cbn [is_ascii ascii_toLowerCase].
  by repeat case_bool_decide.
Qed.

Lemma read_spec_read env s :
  is_ascii s = true → read env (Some s) = spec_read s.
Proof.
  intros Hs. rewrite read_Some. unfold toLowerCase, spec_read. rewrite Hs.
  by rewrite ascii_toLowerCase_light, ascii_toLowerCase_dark.
Qed.

(** The entries the tests of the class try at start-up, and two with a
    character outside the ASCII range: the Kelvin sign is a [k] in lower
    case, the capital I with a dot is more than an [i]. *)
Lemma read_examples :
  let env := page ∅ false false in
  read env (Some "DARK") = Some Dark ∧ read env (Some "dark") = Some Dark
  ∧ read env (Some "Light") = Some Light ∧ read env (Some "light") = Some Light
  ∧ read env (Some "") = None ∧ read env (Some "null") = None
  ∧ read env (Some "invalid") = None ∧ read env (Some "darker") = None
  ∧ read env (Some ("DAR" +:+ kelvin_sign)) = Some Dark
  ∧ read env (Some (String "L" (String "196" (String "176" "GHT")))) = None.
Proof. repeat split. Qed.

(** Start-up on a browser page whose store holds [DAR] and the Kelvin
    sign: the initial mode is dark. *)
Lemma getInitialMode_kelvin_sign :
  let env := page {[storageKey := "DAR" +:+ kelvin_sign]} false false in
  getInitialMode env = Ok (Some Dark, env).
Proof. cbn zeta. vm_compute. reflexivity. Qed.

(** C7. Whatever string the store holds under [dark-mode] at construction,
    the explicit choice read from it is light or dark exactly when the
    lower case of the string is the token [light] or [dark], and none
    otherwise, the empty string and [null] included; the instance
    constructed is then the one an absent entry gives.  For a string of the
    ASCII range that is: exactly when the string spells the token, each
    letter in either case ([DARK] gives dark).  For a string with a
    character outside the ASCII range the lower case is the one the host
    computes. *)
Theorem load_accepts_tokens (env : Env) (st : gmap string string) (s : string) :
  display_context env →
  localStorage env = Some st →
  st !! storageKey = Some s →
  ∃ this env',
    new_DarkMode env = Ok (this, env')
    ∧ getInitialMode env = Ok (modeStore this, env)
    ∧ (modeStore this = Some Light ↔ toLowerCase env s = "light")
    ∧ (modeStore this = Some Dark ↔ toLowerCase env s = "dark")
    ∧ (is_ascii s = true → modeStore this = spec_read s)
    ∧ (is_ascii s = false →
       (modeStore this = Some Light ↔ hostLowerCase env s = "light")
       ∧ (modeStore this = Some Dark ↔ hostLowerCase env s = "dark"))
    ∧ (modeStore this = None →
       ∃ env'',
         new_DarkMode (with_localStorage (delete storageKey st) env)
         = Ok (this, env'')).
Proof.
  intros Hdc Hst Hs. pose proof Hdc as [Hg _ [mm Hmm] [el Hel]].
  eexists _, _. split; [by eapply new_DarkMode_open|].
  cbn [modeStore]. rewrite Hs.
  split.
  { unfold getInitialMode, mbind, M_bind.
    rewrite (load_open _ _ Hg Hst), Hs.
    by destruct (read env (Some s)) as [[]|]. }
  assert ((read env (Some s) = Some Light ↔ toLowerCase env s = "light")
          ∧ (read env (Some s) = Some Dark ↔ toLowerCase env s = "dark"))
    as [Hlight Hdark].
  { rewrite read_Some. repeat case_bool_decide; split; split; congruence. }
  split; [done|]. split; [done|].
  split; [by apply read_spec_read|]. split.
  { intros Hhost. rewrite Hlight, Hdark. unfold toLowerCase.
    by rewrite Hhost. }
  intros Hnone. eexists.
  erewrite new_DarkMode_open by
    (done || apply (display_context_with_localStorage _ _ Hdc) || by cbn).
  cbn zeta. rewrite lookup_delete_eq. by rewrite Hnone.
Qed.

Lemma load_accepts_tokens_witness :
  display_context (page {[storageKey := "DARK"]} false true)
  ∧ localStorage (page {[storageKey := "DARK"]} false true)
    = Some {[storageKey := "DARK"]}
  ∧ ({[storageKey := "DARK"]} : gmap string string) !! storageKey = Some "DARK"
  ∧ ∃ this env',
      new_DarkMode (page {[storageKey := "DARK"]} false true) = Ok (this, env')
      ∧ getInitialMode (page {[storageKey := "DARK"]} false true)
        = Ok (modeStore this, page {[storageKey := "DARK"]} false true)
      ∧ (modeStore this = Some Light
         ↔ toLowerCase (page {[storageKey := "DARK"]} false true) "DARK"
           = "light")
      ∧ (modeStore this = Some Dark
         ↔ toLowerCase (page {[storageKey := "DARK"]} false true) "DARK"
           = "dark")
      ∧ (is_ascii "DARK" = true → modeStore this = spec_read "DARK")
      ∧ (is_ascii "DARK" = false →
         (modeStore this = Some Light
          ↔ hostLowerCase (page {[storageKey := "DARK"]} false true) "DARK"
            = "light")
         ∧ (modeStore this = Some Dark
            ↔ hostLowerCase (page {[storageKey := "DARK"]} false true) "DARK"
              = "dark"))
      ∧ (modeStore this = None →
         ∃ env'',
           new_DarkMode
             (with_localStorage (delete storageKey {[storageKey := "DARK"]})
                (page {[storageKey := "DARK"]} false true))
           = Ok (this, env'')).
Proof.
  split; [split; [reflexivity | eexists; reflexivity ..]|].
  split; [reflexivity|]. split; [reflexivity|].
  apply (load_accepts_tokens _ {[storageKey := "DARK"]} "DARK").
  - split; [reflexivity | eexists; reflexivity ..].
  - reflexivity.
  - reflexivity.
Defined.

(** * Hosts without a display context *)

(** A development build has the guard open wherever it runs: on a server,
    without any of the globals, every guarded method throws, and so does
    the constructor. *)
Lemma dev_server_throws :
  headless server_dev
  ∧ ¬ display_context server_dev
  ∧ isBrowser server_dev = Ok (true, server_dev)
  ∧ updateDOM (instance None None) server_dev
    = Throw (ReferenceError "document")
  ∧ getPrefersMode server_dev = Throw (ReferenceError "matchMedia")
  ∧ load server_dev = Throw (ReferenceError "localStorage")
  ∧ store (instance None None) server_dev
    = Throw (ReferenceError "localStorage")
  ∧ new_DarkMode server_dev = Throw (ReferenceError "localStorage")
  ∧ ¬ degrades server_dev.
Proof.
  split; [done|]. split; [by intros [_ [? ?] _ _]|].
  repeat (split; [done|]).
  intros Hdeg. by destruct (Hdeg (instance None None)) as [? _].
Qed.

Lemma run_closed env :
  guard_open env = false →
  ∀ os this, ∃ this',
    run os this env = Ok (this', env) ∧ defaultMode this' = defaultMode this.
Proof.
  intros Hg os. induction os as [|o os IH]; intros this.
  - by exists this.
  - assert (∃ s1, step o this env = Ok (s1, env)) as [s1 Hstep].
    { destruct o as [m| |b]; cbn [step].
      - rewrite set_mode_closed by done. eauto.
      - rewrite toggle_closed by done. eauto.
      - rewrite dispatch_change_unfold, on_change_closed by done.
        case_bool_decide; eauto. }
    destruct (IH s1) as (s2 & Hrun & Hd). exists s2. split.
    + cbn [run]. unfold mbind, M_bind. by rewrite Hstep.
    + rewrite Hd. by eapply step_defaultMode.
Qed.

(** C8, amended. When the guard [isBrowser] is closed, that is in a build
    that is neither a development nor a browser build, applying to the
    display, reading the system preference and reading and writing the
    store do nothing, return unset and do not throw, whether or not the
    globals exist; the constructor, the setter, [toggle] and the callback
    complete without touching the environment, and after any run the
    getter resolves the fields in memory by precedence. *)
Theorem closed_guard_degrades (env : Env) :
  guard_open env = false →
  degrades env
  ∧ new_DarkMode env = Ok (instance None None, env)
  ∧ (∀ m this, set_mode m this env = Ok (set_modeStore m this, env))
  ∧ (∀ this, toggle this env = Ok (flipped this, env))
  ∧ (∀ (b : bool) this,
       on_change b this env
       = Ok (set_prefersStore (Some (if b then Dark else Light)) this, env))
  ∧ (∀ os, ∃ this,
       session os env = Ok (this, env)
       ∧ mode this
         = match modeStore this with
           | Some m => m
           | None => match prefersStore this with
                     | Some m => m
                     | None => Light
                     end
           end).
Proof.
  intros Hg. split; [|split; [|split; [|split; [|split]]]].
  - intros this. by rewrite updateDOM_closed, getPrefersMode_closed,
      load_closed, store_closed.
  - by apply new_DarkMode_closed.
  - intros. by apply set_mode_closed.
  - intros. by apply toggle_closed.
  - intros. by apply on_change_closed.
  - intros os.
    rewrite (session_unfold _ _ _ _ (new_DarkMode_closed _ Hg)).
    destruct (run_closed env Hg os (instance None None)) as (this & -> & Hd).
    exists this. split; [done|]. unfold mode. rewrite Hd.
    by destruct (modeStore this), (prefersStore this).
Qed.

Lemma closed_guard_degrades_witness :
  guard_open server_prod = false
  ∧ degrades server_prod
  ∧ new_DarkMode server_prod = Ok (instance None None, server_prod)
  ∧ (∀ m this,
       set_mode m this server_prod = Ok (set_modeStore m this, server_prod))
  ∧ (∀ this, toggle this server_prod = Ok (flipped this, server_prod))
  ∧ (∀ (b : bool) this,
       on_change b this server_prod
       = Ok (set_prefersStore (Some (if b then Dark else Light)) this,
             server_prod))
  ∧ (∀ os, ∃ this,
       session os server_prod = Ok (this, server_prod)
       ∧ mode this
         = match modeStore this with
           | Some m => m
           | None => match prefersStore this with
                     | Some m => m
                     | None => Light
                     end
           end).
Proof.
  split; [reflexivity|]. apply closed_guard_degrades. reflexivity.
Defined.

(** * Notifications of the system *)

Lemma run_app os1 os2 this env :
  run (os1 ++ os2) this env = (this' ← run os1 this; run os2 this') env.
Proof.
  revert this env. induction os1 as [|o os1 IH]; intros this env; [done|].
  cbn [app run]. unfold mbind, M_bind in *.
  destruct (step o this env) as [[s1 env1]|]; [apply IH | done].
Qed.

(** The callback stays registered through every run. *)
Lemma step_listening o this env :
  display_context env → darkQuery ∈ changeListeners env →
  ∃ this' env',
    step o this env = Ok (this', env')
    ∧ display_context env' ∧ darkQuery ∈ changeListeners env'.
Proof.
  intros Hdc Hin.
  destruct (step_open o this env Hdc)
    as (this' & env' & _ & _ & Hrun & Hdc' & Hls & _).
  exists this', env'. by rewrite Hls.
Qed.

(** In a display context every session comes to an end, with the callback
    of the constructor registered. *)
Lemma session_listening env os :
  display_context env →
  ∃ this env',
    session os env = Ok (this, env')
    ∧ display_context env' ∧ darkQuery ∈ changeListeners env'.
Proof.
  intros Hdc. pose proof Hdc as [Hg [st Hst] [mm Hmm] [el Hel]].
  pose proof (new_DarkMode_open _ _ _ _ Hg Hst Hmm Hel) as Hnew.
  cbn zeta in Hnew. rewrite (session_unfold _ _ _ _ Hnew).
  apply (run_invariant (λ _ env, darkQuery ∈ changeListeners env)).
  - intros. by apply step_listening.
  - auto with host.
  - cbn. apply elem_of_app. right. by apply list_elem_of_singleton.
Qed.

Lemma dispatch_change_listening (b : bool) this env :
  display_context env → darkQuery ∈ changeListeners env →
  ∃ env',
    dispatch_change b this env
    = Ok (set_prefersStore (Some (if b then Dark else Light)) this, env')
    ∧ display_context env' ∧ darkQuery ∈ changeListeners env'.
Proof.
  intros Hdc Hin. pose proof Hdc as [Hg _ _ [el Hel]].
  rewrite dispatch_change_unfold, bool_decide_eq_true_2 by done.
  rewrite (on_change_open _ _ _ _ Hg Hel). eexists. split; [done|].
  split; [auto with host | done].
Qed.

(** C9. At any point in the life of an instance constructed in a display
    context, if there is no explicit choice, a notification whose [matches]
    is true makes the getter read dark, and a notification whose [matches]
    is false right after it makes the getter read light; nothing else is
    called. *)
Theorem os_change_drives_mode (env : Env) (os : list Op) :
  display_context env →
  ∃ this env0,
    session os env = Ok (this, env0)
    ∧ (modeStore this = None →
       ∃ s1 env1 s2 env2,
         dispatch_change true this env0 = Ok (s1, env1)
         ∧ mode s1 = Dark
         ∧ dispatch_change false s1 env1 = Ok (s2, env2)
         ∧ mode s2 = Light).
Proof.
  intros Hdc.
  destruct (session_listening env os Hdc) as (this & env0 & Hrun & Hdc0 & Hin).
  exists this, env0. split; [done|]. intros Hunset.
  destruct (dispatch_change_listening true this env0 Hdc0 Hin)
    as (env1 & Hrun1 & Hdc1 & Hin1).
  destruct (dispatch_change_listening false
              (set_prefersStore (Some Dark) this) env1 Hdc1 Hin1)
    as (env2 & Hrun2 & _).
  eexists _, env1, _, env2. split; [exact Hrun1|].
  split; [|split; [exact Hrun2|]]; unfold mode; cbn; by rewrite Hunset.
Qed.

Lemma os_change_drives_mode_witness :
  display_context (page ∅ false false)
  ∧ ∃ this env0,
      session [SetMode (Some Dark); SetMode None] (page ∅ false false)
      = Ok (this, env0)
      ∧ (modeStore this = None →
         ∃ s1 env1 s2 env2,
           dispatch_change true this env0 = Ok (s1, env1)
           ∧ mode s1 = Dark
           ∧ dispatch_change false s1 env1 = Ok (s2, env2)
           ∧ mode s2 = Light).
Proof.
  split.
  - split; [reflexivity | eexists; reflexivity ..].
  - apply os_change_drives_mode.
    split; [reflexivity | eexists; reflexivity ..].
Defined.

Lemma session_app os1 os2 env :
  session (os1 ++ os2) env = (this ← session os1; run os2 this) env.
Proof.
  unfold session, mbind, M_bind.
  destruct (new_DarkMode env) as [[this env0]|]; [|done].
  apply run_app.
Qed.

(** No step unsets the system preference. *)
Lemma step_prefers_set o this env :
  display_context env → is_Some (prefersStore this) →
  ∃ this' env',
    step o this env = Ok (this', env')
    ∧ display_context env' ∧ is_Some (prefersStore this').
Proof.
  intros Hdc Hset.
  destruct (step_open o this env Hdc)
    as (this' & env' & _ & _ & Hrun & Hdc' & _ & Hp & _).
  exists this', env'. split; [done|]. split; [done|]. rewrite Hp.
  destruct o as [m| |b]; try done. by case_bool_decide.
Qed.

(** The first read of the system preference can be unset, as it is on a
    page where neither query matches. *)
Lemma initial_read_may_be_unset :
  ∃ this env',
    new_DarkMode (page ∅ false false) = Ok (this, env')
    ∧ prefersStore this = None.
Proof. eexists _, _. split; [by eapply new_DarkMode_open | done]. Qed.

(** C10. In a display context, the notification handled sets the system
    preference to dark when [matches] is true and to light when it is
    false, from that flag alone; whatever is called afterwards, the system
    preference is dark or light and not unset again, while the first read
    at construction can be unset; so from then on, while there is no
    explicit choice, the getter reads the system preference and the default
    has no part in it. *)
Theorem os_preference_stays_set (env : Env) (os : list Op) (b : bool)
    (os' : list Op) :
  display_context env →
  (∃ this0 env0,
     new_DarkMode (page ∅ false false) = Ok (this0, env0)
     ∧ prefersStore this0 = None)
  ∧ ∃ this env1,
      session (os ++ [OsChange b]) env = Ok (this, env1)
      ∧ prefersStore this = Some (if b then Dark else Light)
      ∧ ∃ this' env2,
          session (os ++ OsChange b :: os') env = Ok (this', env2)
          ∧ run os' this env1 = Ok (this', env2)
          ∧ (prefersStore this' = Some Dark ∨ prefersStore this' = Some Light)
          ∧ (modeStore this' = None →
             Some (mode this') = prefersStore this'
             ∧ ∀ d, mode (set_defaultMode d this') = mode this').
Proof.
  intros Hdc. split; [exact initial_read_may_be_unset|].
  destruct (session_listening env os Hdc) as (s0 & env0 & Hrun & Hdc0 & Hin).
  destruct (dispatch_change_listening b s0 env0 Hdc0 Hin)
    as (env1 & Hrun1 & Hdc1 & Hin1).
  assert (session (os ++ [OsChange b]) env
          = Ok (set_prefersStore (Some (if b then Dark else Light)) s0, env1))
    as Hfirst.
  { rewrite session_app. unfold mbind, M_bind. rewrite Hrun.
    cbn [run step]. unfold mbind, M_bind. by rewrite Hrun1. }
  eexists _, env1. split; [exact Hfirst|]. split; [done|].
  destruct (run_invariant (λ this _, is_Some (prefersStore this))
              step_prefers_set os'
              (set_prefersStore (Some (if b then Dark else Light)) s0) env1)
    as (this' & env2 & Hrun2 & _ & [m Hm]); [done | by eexists |].
  exists this', env2. split.
  { rewrite session_app. unfold mbind, M_bind. rewrite Hrun.
    cbn [run step]. unfold mbind, M_bind. by rewrite Hrun1. }
  split; [exact Hrun2|]. rewrite Hm. split.
  - destruct m; auto.
  - intros Hunset. unfold mode. cbn. by rewrite Hunset, Hm.
Qed.

Lemma os_preference_stays_set_witness :
  display_context (page ∅ false false)
  ∧ (∃ this0 env0,
       new_DarkMode (page ∅ false false) = Ok (this0, env0)
       ∧ prefersStore this0 = None)
  ∧ ∃ this env1,
      session ([Toggle] ++ [OsChange true]) (page ∅ false false)
      = Ok (this, env1)
      ∧ prefersStore this = Some (if true then Dark else Light)
      ∧ ∃ this' env2,
          session ([Toggle] ++ OsChange true :: [SetMode None; Toggle])
            (page ∅ false false) = Ok (this', env2)
          ∧ run [SetMode None; Toggle] this env1 = Ok (this', env2)
          ∧ (prefersStore this' = Some Dark ∨ prefersStore this' = Some Light)
          ∧ (modeStore this' = None →
             Some (mode this') = prefersStore this'
             ∧ ∀ d, mode (set_defaultMode d this') = mode this').
Proof.
  split.
  - split; [reflexivity | eexists; reflexivity ..].
  - apply os_preference_stays_set.
    split; [reflexivity | eexists; reflexivity ..].
Defined.

Local Open Scope list_scope.

(** * Further properties of the class *)

(** ** Writing twice *)

Lemma write_write e1 e2 (st : gmap string string) :
  write e2 (write e1 st) = write e2 st.
Proof.
  destruct e1, e2; cbn;
    [apply insert_insert_eq | apply delete_insert_eq
    | apply insert_delete_eq | apply delete_delete_eq].
Qed.

Lemma paint_paint m1 m2 el : paint m2 (paint m1 el) = paint m2 el.
Proof.
  unfold paint. cbn [classList colorScheme]. f_equal.
  apply set_eq; intros t; repeat case_bool_decide;
    rewrite ?elem_of_union, ?elem_of_difference, ?elem_of_union,
      ?elem_of_difference;
    destruct (decide (t ∈ ({["dark"]} : gset string))); tauto.
Qed.

Lemma read_token env e : read env (Mode_str <$> e) = e.
Proof. by destruct e as [[]|]. Qed.

(** X1. In a display context an assignment [mode = m] returns with the
    explicit choice [m] and the system preference as it was; the getter
    then reads [m], or the system preference (else the default) when [m] is
    undefined; the store holds the token of [m], or no entry; the root
    element shows the mode read. *)
Theorem set_mode_round_trip (m : ThemeMode) (this : DarkMode) (env : Env) :
  display_context env →
  ∃ this' env',
    set_mode m this env = Ok (this', env')
    ∧ modeStore this' = m
    ∧ prefersStore this' = prefersStore this
    ∧ mode this'
      = nullish m (nullish (prefersStore this) (defaultMode this))
    ∧ persisted env' = Mode_str <$> m
    ∧ (root_has_dark env' ↔ mode this' = Dark)
    ∧ root_colorScheme env' = Some (Mode_str (mode this')).
Proof.
  intros [Hg [st Hst] _ [el Hel]].
  eexists _, _. split; [by eapply set_mode_open|].
  split; [done|]. split; [done|].
  split; [unfold mode; cbn; by destruct m, (prefersStore this)|].
  split; [by rewrite persisted_with_localStorage, persisted_write|].
  split.
  - unfold root_has_dark. cbn [document with_localStorage with_document].
    split.
    + intros (el' & Heq & Hin). injection Heq as <-.
      by apply dark_in_paint in Hin.
    + intros Hd. exists (paint (mode (set_modeStore m this)) el).
      split; [done | by apply dark_in_paint].
  - unfold root_colorScheme. cbn [document with_localStorage with_document].
    generalize (mode (set_modeStore m this)). by intros [].
Qed.

Lemma set_mode_round_trip_witness :
  display_context (page {[storageKey := "dark"]} true false)
  ∧ ∃ this' env',
      set_mode None (instance (Some Light) (Some Dark))
        (page {[storageKey := "dark"]} true false) = Ok (this', env')
      ∧ modeStore this' = None
      ∧ prefersStore this' = prefersStore (instance (Some Light) (Some Dark))
      ∧ mode this'
        = nullish None
            (nullish (prefersStore (instance (Some Light) (Some Dark)))
               (defaultMode (instance (Some Light) (Some Dark))))
      ∧ persisted env' = Mode_str <$> None
      ∧ (root_has_dark env' ↔ mode this' = Dark)
      ∧ root_colorScheme env' = Some (Mode_str (mode this')).
Proof.
  split.
  - split; [reflexivity | eexists; reflexivity ..].
  - apply set_mode_round_trip.
    split; [reflexivity | eexists; reflexivity ..].
Defined.

Lemma toggle_as_set_mode this env :
  toggle this env = set_mode (modeStore (flipped this)) this env.
Proof. by destruct this as [[] [[]|] p]. Qed.

(** X2. [toggle] is the setter applied to the choice it computes: on every
    environment, whether the call returns or throws, [toggle()] does what
    the assignment of the flipped choice does; the flipped choice is the
    other mode when there is an explicit choice, dark when there is none
    and the default is light, and none when there is none and the default
    is dark. *)
Theorem toggle_is_set_mode (this : DarkMode) (env : Env) :
  toggle this env
  = set_mode
      (match modeStore this with
       | Some Light => Some Dark
       | Some Dark => Some Light
       | None => match defaultMode this with
                 | Light => Some Dark
                 | Dark => None
                 end
       end) this env.
Proof. rewrite toggle_as_set_mode. by destruct this as [[] [[]|] p]. Qed.

(** X3. In a display context an assignment to [mode] overrides whatever
    the assignment or [toggle] before it did: instance and environment are
    those the last assignment alone leaves.  In particular assigning the
    same value twice is assigning it once. *)
Theorem set_mode_last_wins (o : Op) (m : ThemeMode) (this : DarkMode)
    (env : Env) :
  display_context env →
  writes o = true →
  ∃ this' env',
    set_mode m this env = Ok (this', env')
    ∧ (s1 ← step o this; set_mode m s1) env = Ok (this', env').
Proof.
  intros [Hg [st Hst] _ [el Hel]] Hw.
  eexists _, _. split; [by eapply set_mode_open|].
  unfold mbind, M_bind. destruct o as [m1| |b]; [| |done]; cbn [step].
  - rewrite (set_mode_open _ _ _ _ _ Hg Hst Hel).
    erewrite set_mode_open by done.
    by rewrite write_write, paint_paint.
  - rewrite (toggle_open _ _ _ _ Hg Hst Hel).
    erewrite set_mode_open by done.
    rewrite write_write, paint_paint. by destruct this as [[] [[]|] p].
Qed.

Lemma set_mode_last_wins_witness :
  display_context (page ∅ true false)
  ∧ writes Toggle = true
  ∧ ∃ this' env',
      set_mode (Some Light) (instance None (Some Dark)) (page ∅ true false)
      = Ok (this', env')
      ∧ (s1 ← step Toggle (instance None (Some Dark)); set_mode (Some Light) s1)
          (page ∅ true false) = Ok (this', env').
Proof.
  split; [split; [reflexivity | eexists; reflexivity ..]|].
  split; [reflexivity|].
  apply set_mode_last_wins; [|reflexivity].
  split; [reflexivity | eexists; reflexivity ..].
Defined.

(** ** What the class leaves alone *)

Lemma same_elsewhere_refl env : same_elsewhere env env.
Proof. by do 3 (split; [done|]). Qed.

Lemma same_elsewhere_trans env1 env2 env3 :
  same_elsewhere env1 env2 → same_elsewhere env2 env3 →
  same_elsewhere env1 env3.
Proof.
  intros (? & ? & ? & Hk & Ht) (? & ? & ? & Hk' & Ht').
  do 3 (split; [congruence|]). split.
  - intros key ?. by rewrite Hk', Hk.
  - intros tok ?. by rewrite Ht', Ht.
Qed.

Lemma other_class_paint t m el :
  t ≠ "dark" → t ∈ classList (paint m el) ↔ t ∈ classList el.
Proof.
  intros Hne. unfold paint. cbn [classList]. case_bool_decide.
  - rewrite elem_of_union, elem_of_singleton. tauto.
  - rewrite elem_of_difference, elem_of_singleton. tauto.
Qed.

Lemma other_key_write k e (st : gmap string string) :
  k ≠ storageKey → write e st !! k = st !! k.
Proof.
  intros Hne. destruct e; cbn;
    [by apply lookup_insert_ne | by apply lookup_delete_ne].
Qed.

Lemma same_elsewhere_painted env m el :
  document env = Some el →
  same_elsewhere env (with_document (paint m el) env).
Proof.
  intros Hel. do 4 (split; [done|]). intros t Hne. unfold has_class.
  cbn [document with_document]. split.
  - intros (el' & [= <-] & Hin). exists el.
    split; [done | by apply other_class_paint in Hin].
  - rewrite Hel. intros (el' & [= <-] & Hin). eexists.
    split; [done | by apply other_class_paint].
Qed.

Lemma same_elsewhere_written env e st :
  localStorage env = Some st →
  same_elsewhere env (with_localStorage (write e st) env).
Proof.
  intros Hst. do 3 (split; [done|]). split; [|done].
  intros k Hne. unfold item. cbn [localStorage with_localStorage].
  rewrite Hst. cbn. by apply other_key_write.
Qed.

Lemma same_elsewhere_listeners env ls :
  same_elsewhere env (with_changeListeners ls env).
Proof. by do 3 (split; [done|]). Qed.

(** One step, with its result spelled out. *)
Lemma step_frame o this env :
  display_context env →
  ∃ this' env',
    step o this env = Ok (this', env')
    ∧ display_context env'
    ∧ same_elsewhere env env'
    ∧ changeListeners env' = changeListeners env.
Proof.
  intros Hdc. pose proof Hdc as [Hg [st Hst] _ [el Hel]].
  destruct o as [m| |b]; cbn [step].
  - rewrite (set_mode_open _ _ _ _ _ Hg Hst Hel). eexists _, _.
    split; [done|]. split; [auto with host|]. split; [|done].
    eapply same_elsewhere_trans;
      [by apply same_elsewhere_painted | by apply same_elsewhere_written].
  - rewrite (toggle_open _ _ _ _ Hg Hst Hel). eexists _, _.
    split; [done|]. split; [auto with host|]. split; [|done].
    eapply same_elsewhere_trans;
      [by apply same_elsewhere_painted | by apply same_elsewhere_written].
  - rewrite dispatch_change_unfold. case_bool_decide.
    + rewrite (on_change_open _ _ _ _ Hg Hel). eexists _, _.
      split; [done|]. split; [auto with host|]. split; [|done].
      by apply same_elsewhere_painted.
    + exists this, env. split; [done|]. split; [done|].
      split; [apply same_elsewhere_refl | done].
Qed.

(** X4. In a display context a session changes nothing of the page but
    the entry [dark-mode] of the store, the class token [dark] and the
    [color-scheme] of the root element: the two flags, the media-query
    function, every other entry of the store and every other class token
    are as they were, and the constructor's is the one listener added, on
    the dark query. *)
Theorem session_frame (env : Env) (os : list Op) :
  display_context env →
  ∃ this env',
    session os env = Ok (this, env')
    ∧ DEV env' = DEV env
    ∧ BROWSER env' = BROWSER env
    ∧ matchMedia env' = matchMedia env
    ∧ (∀ k, k ≠ storageKey → item k env' = item k env)
    ∧ (∀ t, t ≠ "dark" → has_class t env' ↔ has_class t env)
    ∧ changeListeners env'
      = (changeListeners env ++ [darkQuery])%list.
Proof.
  intros Hdc. pose proof Hdc as [Hg [st Hst] [mm Hmm] [el Hel]].
  pose proof (new_DarkMode_open _ _ _ _ Hg Hst Hmm Hel) as Hnew.
  cbn zeta in Hnew. rewrite (session_unfold _ _ _ _ Hnew).
  set (this0 := mkDarkMode Light (read env (st !! storageKey)) (prefers mm)).
  set (env0 := with_changeListeners _ _).
  destruct (run_invariant
              (λ _ env', same_elsewhere env env'
                         ∧ changeListeners env'
                           = (changeListeners env ++ [darkQuery])%list)
              ) with (os := os) (this := this0) (env := env0)
    as (this & env' & Hrun & _ & Hsame & Hls).
  - intros o s1 env1 Hdc1 [Hsame1 Hls1].
    destruct (step_frame o s1 env1 Hdc1)
      as (s2 & env2 & Hstep & Hdc2 & Hsame2 & Hls2).
    exists s2, env2. split; [done|]. split; [done|]. split.
    + by eapply same_elsewhere_trans.
    + by rewrite Hls2.
  - subst env0. auto with host.
  - split; [|done]. subst env0.
    eapply same_elsewhere_trans;
      [by apply same_elsewhere_painted | apply same_elsewhere_listeners].
  - exists this, env'. split; [done|].
    by destruct Hsame as (? & ? & ? & ? & ?).
Qed.

Lemma session_frame_witness :
  display_context (page {["lang" := "en"]} true false)
  ∧ ∃ this env',
      session [Toggle; OsChange false; SetMode None]
        (page {["lang" := "en"]} true false) = Ok (this, env')
      ∧ DEV env' = DEV (page {["lang" := "en"]} true false)
      ∧ BROWSER env' = BROWSER (page {["lang" := "en"]} true false)
      ∧ matchMedia env' = matchMedia (page {["lang" := "en"]} true false)
      ∧ (∀ k, k ≠ storageKey →
           item k env' = item k (page {["lang" := "en"]} true false))
      ∧ (∀ t, t ≠ "dark" →
           has_class t env'
           ↔ has_class t (page {["lang" := "en"]} true false))
      ∧ changeListeners env'
        = (changeListeners (page {["lang" := "en"]} true false)
           ++ [darkQuery])%list.
Proof.
  split.
  - split; [reflexivity | eexists; reflexivity ..].
  - apply session_frame.
    split; [reflexivity | eexists; reflexivity ..].
Defined.

(** ** Sessions that do not write *)

Lemma run_no_write os : ∀ this env,
  display_context env →
  existsb writes os = false →
  ∃ this' env',
    run os this env = Ok (this', env')
    ∧ localStorage env' = localStorage env
    ∧ modeStore this' = modeStore this.
Proof.
  induction os as [|o os IH]; intros this env Hdc Hnw.
  - by exists this, env.
  - cbn [existsb] in Hnw. apply orb_false_iff in Hnw as [Ho Hos].
    destruct o as [m| |b]; try done.
    destruct (step_open (OsChange b) this env Hdc)
      as (s1 & env1 & _ & _ & Hstep & Hdc1 & _ & _ & Hm & Hst & _).
    destruct (IH s1 env1 Hdc1 Hos) as (s2 & env2 & Hrun & Hst2 & Hm2).
    exists s2, env2. split; [|split; congruence].
    cbn [run]. unfold mbind, M_bind. by rewrite Hstep.
Qed.

(** X5. In a display context the constructor and the notifications of the
    system never write the store: after a session without assignment and
    without [toggle] the store is the one found, entry for entry, and the
    explicit choice is the one the constructor read. *)
Theorem session_without_write (env : Env) (os : list Op) :
  display_context env →
  existsb writes os = false →
  ∃ this env' this0 env0,
    session os env = Ok (this, env')
    ∧ localStorage env' = localStorage env
    ∧ new_DarkMode env = Ok (this0, env0)
    ∧ modeStore this = modeStore this0.
Proof.
  intros Hdc Hnw. pose proof Hdc as [Hg [st Hst] [mm Hmm] [el Hel]].
  pose proof (new_DarkMode_open _ _ _ _ Hg Hst Hmm Hel) as Hnew.
  cbn zeta in Hnew. rewrite (session_unfold _ _ _ _ Hnew).
  edestruct run_no_write as (this & env' & -> & Hst' & Hm);
    [|exact Hnw|]; [eauto with host|].
  by eexists this, env', _, _.
Qed.

Lemma session_without_write_witness :
  display_context (page {[storageKey := "DARK"]} false true)
  ∧ existsb writes [OsChange true; OsChange false] = false
  ∧ ∃ this env' this0 env0,
      session [OsChange true; OsChange false]
        (page {[storageKey := "DARK"]} false true) = Ok (this, env')
      ∧ localStorage env'
        = localStorage (page {[storageKey := "DARK"]} false true)
      ∧ new_DarkMode (page {[storageKey := "DARK"]} false true)
        = Ok (this0, env0)
      ∧ modeStore this = modeStore this0.
Proof.
  split; [split; [reflexivity | eexists; reflexivity ..]|].
  split; [reflexivity|].
  apply session_without_write; [|reflexivity].
  split; [reflexivity | eexists; reflexivity ..].
Defined.

(** ** Reloading *)

Lemma step_host o this env this' env' :
  display_context env →
  step o this env = Ok (this', env') →
  hostLowerCase env' = hostLowerCase env.
Proof.
  intros [Hg [st Hst] _ [el Hel]]. destruct o as [m| |b]; cbn [step].
  - rewrite (set_mode_open _ _ _ _ _ Hg Hst Hel). by intros [= <- <-].
  - rewrite (toggle_open _ _ _ _ Hg Hst Hel). by intros [= <- <-].
  - rewrite dispatch_change_unfold. case_bool_decide.
    + rewrite (on_change_open _ _ _ _ Hg Hel). by intros [= <- <-].
    + by intros [= <- <-].
Qed.

Lemma read_host env env' item :
  hostLowerCase env' = hostLowerCase env → read env' item = read env item.
Proof. intros Hhost. unfold read, toLowerCase. by rewrite Hhost. Qed.

Lemma step_reload o this env :
  display_context env →
  read env (persisted env) = modeStore this →
  ∃ this' env',
    step o this env = Ok (this', env')
    ∧ display_context env'
    ∧ read env' (persisted env') = modeStore this'.
Proof.
  intros Hdc Hinv.
  destruct (step_open o this env Hdc)
    as (this' & env' & st & el & Hrun & Hdc' & _ & _ & Heff).
  exists this', env'. split; [done|]. split; [done|].
  rewrite (read_host env env') by by eapply step_host.
  destruct o as [m| |b].
  - destruct Heff as [Hst _].
    by rewrite (persisted_of_localStorage _ _ Hst), persisted_write,
      read_token.
  - destruct Heff as [Hst _].
    by rewrite (persisted_of_localStorage _ _ Hst), persisted_write,
      read_token.
  - destruct Heff as (-> & Hst & _). unfold persisted in *. by rewrite Hst.
Qed.

(** X6. In a display context, at every point of a session, an instance
    constructed anew on the page as it stands reads from the store the
    explicit choice the running instance has: whatever was assigned or
    toggled last is what a reload finds, and a reload finds no choice
    exactly when the running instance has none.  With an explicit choice
    the new instance resolves to the same mode. *)
Theorem reload_finds_choice (env : Env) (os : list Op) :
  display_context env →
  ∃ this env' this2 env2,
    session os env = Ok (this, env')
    ∧ new_DarkMode env' = Ok (this2, env2)
    ∧ modeStore this2 = modeStore this
    ∧ (modeStore this ≠ None → mode this2 = mode this).
Proof.
  intros Hdc. pose proof Hdc as [Hg [st Hst] [mm Hmm] [el Hel]].
  pose proof (new_DarkMode_open _ _ _ _ Hg Hst Hmm Hel) as Hnew.
  cbn zeta in Hnew. rewrite (session_unfold _ _ _ _ Hnew).
  edestruct (run_invariant
               (λ this env', read env' (persisted env') = modeStore this)
               step_reload os) as (this & env' & -> & Hdc' & Hinv).
  { eauto with host. }
  { rewrite persisted_with_changeListeners, persisted_with_document.
    by rewrite (persisted_of_localStorage _ _ Hst). }
  destruct Hdc' as [Hg' [st' Hst'] [mm' Hmm'] [el' Hel']].
  pose proof (new_DarkMode_open _ _ _ _ Hg' Hst' Hmm' Hel') as Hnew'.
  cbn zeta in Hnew'. eexists this, env', _, _.
  split; [done|]. split; [exact Hnew'|].
  rewrite (persisted_of_localStorage _ _ Hst') in Hinv.
  cbn [modeStore]. split; [done|].
  intros Hset. unfold mode. cbn [modeStore prefersStore defaultMode].
  rewrite Hinv. by destruct (modeStore this).
Qed.

Lemma reload_finds_choice_witness :
  display_context (page {[storageKey := "Light"]} true false)
  ∧ ∃ this env' this2 env2,
      session [Toggle; OsChange false]
        (page {[storageKey := "Light"]} true false) = Ok (this, env')
      ∧ new_DarkMode env' = Ok (this2, env2)
      ∧ modeStore this2 = modeStore this
      ∧ (modeStore this ≠ None → mode this2 = mode this).
Proof.
  split.
  - split; [reflexivity | eexists; reflexivity ..].
  - apply reload_finds_choice.
    split; [reflexivity | eexists; reflexivity ..].
Defined.

(** ** Notifications under an explicit choice *)

Lemma with_document_same env el :
  document env = Some el → with_document el env = env.
Proof. destruct env. cbn. by intros ->. Qed.

Lemma paint_fixed this env el :
  dom_inv this env → document env = Some el → paint (mode this) el = el.
Proof.
  intros [Hcl Hcs] Hel. unfold root_has_dark, root_colorScheme in *.
  rewrite Hel in Hcl, Hcs. destruct el as [cl cs]. cbn in Hcs.
  injection Hcs as ->. unfold paint. cbn [classList colorScheme].
  assert ("dark" ∈ cl ↔ mode this = Dark) as Hin.
  { rewrite <- Hcl. split.
    - intros ?. by eexists.
    - by intros (? & [= <-] & ?). }
  case_bool_decide as Hd.
  - rewrite Hd. f_equal. apply subseteq_union_1_L.
    apply singleton_subseteq_l. by apply Hin.
  - destruct (mode this); [|done]. f_equal.
    apply difference_disjoint_L, disjoint_singleton_r. by rewrite Hin.
Qed.

Lemma dispatch_change_shielded (b : bool) this env m :
  display_context env → modeStore this = Some m → dom_inv this env →
  dispatch_change b this env
  = Ok (set_prefersStore
          (if bool_decide (darkQuery ∈ changeListeners env)
           then Some (if b then Dark else Light) else prefersStore this)
          this, env).
Proof.
  intros [Hg _ _ [el Hel]] Hm Hinv.
  rewrite dispatch_change_unfold. case_bool_decide.
  - rewrite (on_change_open _ _ _ _ Hg Hel). cbn zeta.
    replace (mode (set_prefersStore _ this)) with (mode this)
      by (unfold mode; cbn; by rewrite Hm).
    by rewrite (paint_fixed _ _ _ Hinv Hel), with_document_same.
  - by destruct this.
Qed.

Lemma changes_shielded (bs : list bool) : ∀ this env m,
  display_context env → modeStore this = Some m → dom_inv this env →
  ∃ this',
    run (OsChange <$> bs) this env = Ok (this', env)
    ∧ modeStore this' = Some m.
Proof.
  induction bs as [|b bs IH]; intros this env m Hdc Hm Hinv.
  - by exists this.
  - cbn [fmap list_fmap run step]. unfold mbind, M_bind.
    rewrite (dispatch_change_shielded _ _ _ _ Hdc Hm Hinv).
    apply IH; [done | done |].
    destruct Hinv as [Hcl Hcs]. unfold dom_inv, mode in *.
    cbn [modeStore prefersStore defaultMode set_prefersStore].
    by rewrite Hm in *.
Qed.

(** X7. In a display context, at any point of a session where there is an
    explicit choice, notifications of the system change nothing that shows:
    after any number of them the environment (store, root element,
    listeners) is exactly the one before, the explicit choice is in place
    and the getter reads it. *)
Theorem explicit_choice_shields (env : Env) (os : list Op) (bs : list bool) :
  display_context env →
  ∃ this env',
    session os env = Ok (this, env')
    ∧ ∀ m, modeStore this = Some m →
        ∃ this',
          run (OsChange <$> bs) this env' = Ok (this', env')
          ∧ modeStore this' = Some m
          ∧ mode this' = m.
Proof.
  intros Hdc. pose proof Hdc as [Hg [st Hst] [mm Hmm] [el Hel]].
  pose proof (new_DarkMode_open _ _ _ _ Hg Hst Hmm Hel) as Hnew.
  cbn zeta in Hnew. rewrite (session_unfold _ _ _ _ Hnew).
  edestruct (run_invariant dom_inv step_dom os)
    as (this & env' & -> & Hdc' & Hinv);
    [eauto with host | by eapply dom_inv_paint |].
  exists this, env'. split; [done|]. intros m Hm.
  destruct (changes_shielded bs this env' m Hdc' Hm Hinv) as (this' & ? & Hm').
  exists this'. split; [done|]. split; [done|].
  unfold mode. by rewrite Hm'.
Qed.

Lemma explicit_choice_shields_witness :
  display_context (page ∅ false true)
  ∧ ∃ this env',
      session [SetMode (Some Dark)] (page ∅ false true) = Ok (this, env')
      ∧ ∀ m, modeStore this = Some m →
          ∃ this',
            run (OsChange <$> [true; false; false]) this env'
            = Ok (this', env')
            ∧ modeStore this' = Some m
            ∧ mode this' = m.
Proof.
  split.
  - split; [reflexivity | eexists; reflexivity ..].
  - apply explicit_choice_shields.
    split; [reflexivity | eexists; reflexivity ..].
Defined.

(** ** When a call throws *)

(** X8. The constructor returns when the guard is closed or the three
    globals exist; with the guard open it throws a [ReferenceError] for the
    first global missing, asked in the order [localStorage] (by [load]),
    [matchMedia] (by [getPrefersMode]), [document] (by [updateDOM]). *)
Theorem new_DarkMode_verdict (env : Env) :
  verdict (new_DarkMode env)
  = if guard_open env then
      match localStorage env, matchMedia env, document env with
      | None, _, _ => Some (ReferenceError "localStorage")
      | Some _, None, _ => Some (ReferenceError "matchMedia")
      | Some _, Some _, None => Some (ReferenceError "document")
      | Some _, Some _, Some _ => None
      end
    else None.
Proof.
  destruct (guard_open env) eqn:Hg;
    [|by rewrite new_DarkMode_closed].
  destruct (localStorage env) as [st|] eqn:Hst.
  2:{ unfold new_DarkMode, getInitialMode, load, mbind, M_bind.
      rewrite isBrowser_run, Hg. cbn [negb].
      unfold localStorage_getItem, the_localStorage, get_env, mbind, M_bind.
      by rewrite Hst. }
  destruct (matchMedia env) as [mm|] eqn:Hmm.
  2:{ unfold new_DarkMode, getInitialMode, mbind, M_bind.
      rewrite (load_open _ _ Hg Hst).
      assert (getPrefersMode env = Throw (ReferenceError "matchMedia")) as Hp.
      { unfold getPrefersMode, mbind, M_bind. rewrite isBrowser_run, Hg.
        cbn [negb]. unfold matchMedia_matches, the_matchMedia, get_env,
          mbind, M_bind. by rewrite Hmm. }
      destruct (read env (st !! storageKey)) as [[]|]; cbn; by rewrite Hp. }
  destruct (document env) as [el|] eqn:Hel.
  - by rewrite (new_DarkMode_open _ _ _ _ Hg Hst Hmm Hel).
  - unfold new_DarkMode, getInitialMode, mbind, M_bind.
    rewrite (load_open _ _ Hg Hst).
    assert (∀ this, updateDOM this env = Throw (ReferenceError "document"))
      as Hu.
    { intros this. unfold updateDOM, mbind, M_bind.
      rewrite isBrowser_run, Hg. cbn [negb].
      unfold classList_toggle, the_documentElement, get_env, mbind, M_bind.
      by rewrite Hel. }
    destruct (read env (st !! storageKey)) as [[]|]; cbn;
      rewrite (getPrefersMode_open _ _ Hg Hmm); cbn; by rewrite Hu.
Qed.

Lemma updateDOM_no_document this env :
  guard_open env = true → document env = None →
  updateDOM this env = Throw (ReferenceError "document").
Proof.
  intros Hg Hel. unfold updateDOM, mbind, M_bind.
  rewrite isBrowser_run, Hg. cbn [negb].
  unfold classList_toggle, the_documentElement, get_env, mbind, M_bind.
  by rewrite Hel.
Qed.

Lemma set_mode_verdict m this env :
  verdict (set_mode m this env)
  = if guard_open env then
      match document env, localStorage env with
      | None, _ => Some (ReferenceError "document")
      | Some _, None => Some (ReferenceError "localStorage")
      | Some _, Some _ => None
      end
    else None.
Proof.
  destruct (guard_open env) eqn:Hg; [|by rewrite set_mode_closed].
  destruct (document env) as [el|] eqn:Hel.
  2:{ unfold set_mode, mbind, M_bind.
      by rewrite updateDOM_no_document. }
  destruct (localStorage env) as [st|] eqn:Hst.
  - by rewrite (set_mode_open _ _ _ _ _ Hg Hst Hel).
  - unfold set_mode, mbind, M_bind.
    rewrite (updateDOM_open _ _ _ Hg Hel).
    unfold store, mbind, M_bind. rewrite isBrowser_run.
    replace (guard_open (with_document _ env)) with true by done.
    cbn [negb]. cbn [modeStore set_modeStore].
    destruct m; unfold localStorage_setItem, localStorage_removeItem,
      the_localStorage, get_env, mbind, M_bind;
      cbn [localStorage with_document]; by rewrite Hst.
Qed.

(** X9. The setter and [toggle] return when the guard is closed or
    [document] and [localStorage] exist, whether or not [matchMedia] does;
    with the guard open they throw a [ReferenceError] for [document] when
    it is missing, else for [localStorage] when that is missing.  The
    callback of the constructor needs [document] only. *)
Theorem mutators_verdict (m : ThemeMode) (b : bool) (this : DarkMode)
    (env : Env) :
  let needs_both :=
    if guard_open env then
      match document env, localStorage env with
      | None, _ => Some (ReferenceError "document")
      | Some _, None => Some (ReferenceError "localStorage")
      | Some _, Some _ => None
      end
    else None in
  verdict (set_mode m this env) = needs_both
  ∧ verdict (toggle this env) = needs_both
  ∧ verdict (on_change b this env)
    = if guard_open env then
        match document env with
        | None => Some (ReferenceError "document")
        | Some _ => None
        end
      else None.
Proof.
  cbn zeta. split; [apply set_mode_verdict|].
  split; [rewrite toggle_as_set_mode; apply set_mode_verdict|].
  destruct (guard_open env) eqn:Hg; [|by rewrite on_change_closed].
  destruct (document env) as [el|] eqn:Hel.
  - by rewrite (on_change_open _ _ _ _ Hg Hel).
  - unfold on_change, mbind, M_bind. by rewrite updateDOM_no_document.
Qed.

(** ** A system that prefers light and a system that does not say *)

(** Two instances that differ in the system preference only, and resolve
    it to the same mode. *)
Lemma updateDOM_mode s1 s2 env :
  mode s1 = mode s2 → updateDOM s1 env = updateDOM s2 env.
Proof. unfold updateDOM. by intros ->. Qed.

Lemma store_modeStore s1 s2 env :
  modeStore s1 = modeStore s2 → store s1 env = store s2 env.
Proof. unfold store. by intros ->. Qed.

Lemma step_alike o s1 s2 env :
  defaultMode s1 = defaultMode s2 →
  modeStore s1 = modeStore s2 →
  nullish (prefersStore s1) (defaultMode s1)
  = nullish (prefersStore s2) (defaultMode s2) →
  match step o s1 env, step o s2 env with
  | Ok (s1', env1), Ok (s2', env2) =>
      env1 = env2
      ∧ defaultMode s1' = defaultMode s2'
      ∧ modeStore s1' = modeStore s2'
      ∧ nullish (prefersStore s1') (defaultMode s1')
        = nullish (prefersStore s2') (defaultMode s2')
  | Throw e1, Throw e2 => e1 = e2
  | _, _ => False
  end.
Proof.
  destruct s1 as [d1 e1 p1], s2 as [d2 e2 p2]. cbn. intros -> -> Hos.
  assert (∀ e, mode (mkDarkMode d2 e p1) = mode (mkDarkMode d2 e p2)) as Hmode.
  { intros [m|]; [done | exact Hos]. }
  assert (∀ e,
    match (updateDOM (mkDarkMode d2 e p1);; store (mkDarkMode d2 e p1);;
           mret (mkDarkMode d2 e p1)) env,
          (updateDOM (mkDarkMode d2 e p2);; store (mkDarkMode d2 e p2);;
           mret (mkDarkMode d2 e p2)) env
    with
    | Ok (s1', env1), Ok (s2', env2) =>
        env1 = env2 ∧ defaultMode s1' = defaultMode s2'
        ∧ modeStore s1' = modeStore s2'
        ∧ nullish (prefersStore s1') (defaultMode s1')
          = nullish (prefersStore s2') (defaultMode s2')
    | Throw x1, Throw x2 => x1 = x2
    | _, _ => False
    end) as Hwrite.
  { intros e. unfold mbind, M_bind.
    rewrite (updateDOM_mode _ _ _ (Hmode e)).
    destruct (updateDOM _ env) as [[[] env1]|]; [|done].
    rewrite (store_modeStore (mkDarkMode d2 e p1) (mkDarkMode d2 e p2))
      by done.
    by destruct (store _ env1) as [[[] env2]|]. }
  destruct o as [m| |b]; cbn [step].
  - apply Hwrite.
  - destruct d2, e2 as [[]|]; apply Hwrite.
  - rewrite !dispatch_change_unfold. case_bool_decide.
    + unfold on_change, mbind, M_bind. cbn [set_prefersStore].
      cbn [defaultMode modeStore prefersStore].
      by destruct (updateDOM _ env) as [[[] env1]|].
    + done.
Qed.

Lemma run_alike os : ∀ s1 s2 env,
  defaultMode s1 = defaultMode s2 →
  modeStore s1 = modeStore s2 →
  nullish (prefersStore s1) (defaultMode s1)
  = nullish (prefersStore s2) (defaultMode s2) →
  same_outcome (run os s1 env) (run os s2 env).
Proof.
  induction os as [|o os IH]; intros s1 s2 env Hd Hm Hos.
  - cbn. split; [done|]. split; [done|]. unfold mode.
    rewrite Hm. by destruct (modeStore s2).
  - cbn [run]. unfold mbind, M_bind.
    pose proof (step_alike o s1 s2 env Hd Hm Hos) as Hstep.
    destruct (step o s1 env) as [[s1' env1]|],
             (step o s2 env) as [[s2' env2]|]; try done.
    destruct Hstep as (-> & ? & ? & ?). by apply IH.
Qed.

(** X10. A system preference of light and no system preference at all
    cannot be told apart: from two instances that differ in this only,
    every run of assignments, toggles and notifications, on every
    environment, ends alike, with the same error or with the same
    environment (store, root element, listeners), the same explicit choice
    and the same resolved mode. *)
Theorem light_preference_is_no_preference (e : ThemeMode) (os : list Op)
    (env : Env) :
  same_outcome (run os (instance e (Some Light)) env)
               (run os (instance e None) env).
Proof. by apply run_alike. Qed.

(** * The media-query double *)

Section Double.
Context {L : Type} `{EqDecision L}.
Implicit Types (m : MatchMediaMock.t L) (obj : list (string * list L)).
Implicit Types (q key : string) (l listener : L).

Import MatchMediaMock.

(** ** The object [mediaQueries] *)

Lemma own_key_is_Some key obj : is_Some (own_key key obj) ↔ key ∈ obj.*1.
Proof.
  induction obj as [|[k v] obj IH]; cbn.
  - split; [by intros [? ?] | by intros ?%elem_of_nil].
  - rewrite elem_of_cons. destruct (decide (k = key)) as [->|?].
    + split; [by left | by eexists].
    + rewrite IH. split; [by right | by intros [?|?]; [congruence|]].
Qed.

Lemma own_key_None key obj : own_key key obj = None ↔ key ∉ obj.*1.
Proof.
  rewrite <- own_key_is_Some. destruct (own_key key obj); split; try done.
  - intros Hn. destruct Hn. by eexists.
Qed.

Lemma own_key_elem key value obj :
  own_key key obj = Some value → (key, value) ∈ obj.
Proof.
  induction obj as [|[k v] obj IH]; cbn; [done|].
  destruct (decide (k = key)) as [->|?].
  - intros [= ->]. apply elem_of_cons. by left.
  - intros ?. apply elem_of_cons. right. by apply IH.
Qed.

Lemma own_update_eq key value obj :
  is_Some (own_key key obj) →
  own_key key (update_key key value obj) = Some value.
Proof.
  induction obj as [|[k v] obj IH]; cbn; [by intros [? ?]|].
  destruct (decide (k = key)) as [->|?]; cbn.
  - by rewrite decide_True.
  - rewrite decide_False by done. apply IH.
Qed.

Lemma own_update_ne key key' value obj :
  key' ≠ key → own_key key' (update_key key value obj) = own_key key' obj.
Proof.
  intros Hne. induction obj as [|[k v] obj IH]; cbn; [done|].
  destruct (decide (k = key)) as [->|?]; cbn; [|by rewrite IH].
  by rewrite !decide_False.
Qed.

Lemma keys_update key value obj : (update_key key value obj).*1 = obj.*1.
Proof.
  induction obj as [|[k v] obj IH]; cbn; [done|].
  destruct (decide (k = key)); cbn; [done | by rewrite IH].
Qed.

Lemma update_update key v1 v2 obj :
  update_key key v2 (update_key key v1 obj) = update_key key v2 obj.
Proof.
  induction obj as [|[k v] obj IH]; cbn; [done|].
  destruct (decide (k = key)) as [->|?]; cbn.
  - by rewrite decide_True.
  - by rewrite decide_False, IH.
Qed.

Lemma update_same key value obj :
  own_key key obj = Some value → update_key key value obj = obj.
Proof.
  induction obj as [|[k v] obj IH]; cbn; [done|].
  destruct (decide (k = key)) as [->|?]; [by intros [= ->]|].
  intros ?. by rewrite IH.
Qed.

Lemma own_app_fresh key value obj :
  own_key key obj = None → own_key key (obj ++ [(key, value)]) = Some value.
Proof.
  induction obj as [|[k v] obj IH]; cbn.
  - by rewrite decide_True.
  - destruct (decide (k = key)); [done | apply IH].
Qed.

Lemma own_app_ne key key' value obj :
  key' ≠ key → own_key key' (obj ++ [(key, value)]) = own_key key' obj.
Proof.
  intros Hne. induction obj as [|[k v] obj IH]; cbn.
  - by rewrite decide_False.
  - by destruct (decide (k = key')).
Qed.

Lemma update_app_fresh key v1 v2 obj :
  own_key key obj = None →
  update_key key v2 (obj ++ [(key, v1)]) = obj ++ [(key, v2)].
Proof.
  induction obj as [|[k v] obj IH]; cbn.
  - by rewrite decide_True.
  - destruct (decide (k = key)); [done|]. intros ?. by rewrite IH.
Qed.

Lemma own_create_index_eq n key value obj :
  own_key key obj = None →
  own_key key (create_index n key value obj) = Some value.
Proof.
  induction obj as [|[k v] obj IH]; cbn.
  - by rewrite decide_True.
  - destruct (decide (k = key)) as [->|Hne]; [done|]. intros Hfresh.
    destruct (array_index k) as [n0|]; [destruct (n0 <? n)%N|]; cbn.
    + rewrite decide_False by done. by apply IH.
    + by rewrite decide_True.
    + by rewrite decide_True.
Qed.

Lemma own_create_index_ne n key key' value obj :
  key' ≠ key →
  own_key key' (create_index n key value obj) = own_key key' obj.
Proof.
  intros Hne. induction obj as [|[k v] obj IH]; cbn.
  - by rewrite decide_False.
  - destruct (array_index k) as [n0|]; [destruct (n0 <? n)%N|]; cbn.
    + by destruct (decide (k = key')).
    + by rewrite (decide_False (P := key = key')).
    + by rewrite (decide_False (P := key = key')).
Qed.

Lemma update_create_index n key v1 v2 obj :
  own_key key obj = None →
  update_key key v2 (create_index n key v1 obj) = create_index n key v2 obj.
Proof.
  induction obj as [|[k v] obj IH]; cbn.
  - by rewrite decide_True.
  - destruct (decide (k = key)) as [->|Hne]; [done|]. intros Hfresh.
    destruct (array_index k) as [n0|]; [destruct (n0 <? n)%N|]; cbn.
    + rewrite decide_False by done. by rewrite IH.
    + by rewrite decide_True.
    + by rewrite decide_True.
Qed.

Lemma keys_create_index n key value obj :
  (create_index n key value obj).*1 ≡ₚ key :: obj.*1.
Proof.
  induction obj as [|[k v] obj IH]; cbn; [done|].
  destruct (array_index k) as [n0|]; [destruct (n0 <? n)%N|]; cbn; try done.
  rewrite IH. apply Permutation_swap.
Qed.

Lemma filter_ne_fresh key (keys : list string) :
  key ∉ keys → filter (λ k, k ≠ key) keys = keys.
Proof.
  induction keys as [|k keys IH]; [done|].
  intros [Hne Hout]%not_elem_of_cons.
  rewrite filter_cons_True by congruence. f_equal. by apply IH.
Qed.

Lemma filter_ne_same key (keys : list string) :
  filter (λ k, k ≠ key) (key :: keys) = filter (λ k, k ≠ key) keys.
Proof. apply filter_cons_False. intros Hne. by destruct Hne. Qed.

Lemma keys_create_index_others n key value obj :
  key ∉ obj.*1 →
  filter (λ k, k ≠ key) (create_index n key value obj).*1 = obj.*1.
Proof.
  induction obj as [|[k v] obj IH]; cbn [create_index].
  - intros _. change ([(key, value)].*1) with [key].
    by rewrite filter_ne_same.
  - intros Hout. pose proof Hout as [Hne Hout']%not_elem_of_cons.
    destruct (array_index k) as [n0|]; [destruct (n0 <? n)%N|];
      rewrite !fmap_cons; cbn [fst].
    + rewrite filter_cons_True by (intros ->; by apply Hne).
      f_equal. by apply IH.
    + rewrite filter_ne_same. by apply (filter_ne_fresh key (k :: obj.*1)).
    + rewrite filter_ne_same. by apply (filter_ne_fresh key (k :: obj.*1)).
Qed.

Lemma keys_create_others key value obj :
  key ∉ obj.*1 →
  filter (λ k, k ≠ key) (create_key key value obj).*1 = obj.*1.
Proof.
  intros Hout. unfold create_key. destruct (array_index key).
  - by apply keys_create_index_others.
  - rewrite fmap_app, filter_app. change ([(key, value)].*1) with [key].
    rewrite filter_ne_same, filter_ne_fresh by done. apply app_nil_r.
Qed.

Lemma own_create_eq key value obj :
  own_key key obj = None → own_key key (create_key key value obj) = Some value.
Proof.
  intros Hfresh. unfold create_key. destruct (array_index key).
  - by apply own_create_index_eq.
  - by apply own_app_fresh.
Qed.

Lemma own_create_ne key key' value obj :
  key' ≠ key → own_key key' (create_key key value obj) = own_key key' obj.
Proof.
  intros Hne. unfold create_key. destruct (array_index key).
  - by apply own_create_index_ne.
  - by apply own_app_ne.
Qed.

Lemma update_create key v1 v2 obj :
  own_key key obj = None →
  update_key key v2 (create_key key v1 obj) = create_key key v2 obj.
Proof.
  intros Hfresh. unfold create_key. destruct (array_index key).
  - by apply update_create_index.
  - by apply update_app_fresh.
Qed.

Lemma keys_create key value obj :
  (create_key key value obj).*1 ≡ₚ key :: obj.*1.
Proof.
  unfold create_key. destruct (array_index key).
  - apply keys_create_index.
  - rewrite fmap_app. cbn. by rewrite Permutation_app_comm.
Qed.

Lemma keys_create_last key value obj :
  array_index key = None → (create_key key value obj).*1 = obj.*1 ++ [key].
Proof. unfold create_key. intros ->. by rewrite fmap_app. Qed.

Lemma own_assign_eq key value obj :
  own_key key (assign_key key value obj) = Some value.
Proof.
  unfold assign_key. destruct (own_key key obj) eqn:Hk.
  - apply own_update_eq. by eexists.
  - by apply own_create_eq.
Qed.

Lemma own_assign_ne key key' value obj :
  key' ≠ key → own_key key' (assign_key key value obj) = own_key key' obj.
Proof.
  intros Hne. unfold assign_key. destruct (own_key key obj).
  - by apply own_update_ne.
  - by apply own_create_ne.
Qed.

Lemma assign_assign key v1 v2 obj :
  assign_key key v2 (assign_key key v1 obj) = assign_key key v2 obj.
Proof.
  unfold assign_key at 1. rewrite own_assign_eq.
  unfold assign_key. destruct (own_key key obj) eqn:Hk.
  - apply update_update.
  - by apply update_create.
Qed.

Lemma assign_same key value obj :
  own_key key obj = Some value → assign_key key value obj = obj.
Proof.
  intros Hk. unfold assign_key. rewrite Hk. by apply update_same.
Qed.

Lemma keys_assign_known key value obj :
  key ∈ obj.*1 → (assign_key key value obj).*1 = obj.*1.
Proof.
  intros [v Hv]%own_key_is_Some. unfold assign_key. rewrite Hv.
  apply keys_update.
Qed.

Lemma keys_assign_new key value obj :
  key ∉ obj.*1 →
  (assign_key key value obj).*1 ≡ₚ key :: obj.*1
  ∧ filter (λ k, k ≠ key) (assign_key key value obj).*1 = obj.*1
  ∧ (array_index key = None → (assign_key key value obj).*1 = obj.*1 ++ [key]).
Proof.
  intros Hout. pose proof Hout as Hk%own_key_None.
  unfold assign_key. rewrite Hk. split; [|split].
  - apply keys_create.
  - by apply keys_create_others.
  - apply keys_create_last.
Qed.

(** ** The order of the keys *)

Lemma js_ordered_snoc keys key :
  array_index key = None → js_ordered keys → js_ordered (keys ++ [key]).
Proof.
  intros Hkey. induction keys as [|k keys IH]; cbn.
  - intros _. split; [done|]. rewrite Hkey. by intros ? ?%elem_of_nil.
  - intros [Hord Hk]. split; [by apply IH|].
    destruct (array_index k) as [n|].
    + intros k' [?| ->%list_elem_of_singleton]%elem_of_app; [by apply Hk|].
      by rewrite Hkey.
    + intros k' [?| ->%list_elem_of_singleton]%elem_of_app; [by apply Hk|].
      done.
Qed.

Lemma js_ordered_create_index n key value obj :
  array_index key = Some n →
  js_ordered obj.*1 → js_ordered (create_index n key value obj).*1.
Proof.
  intros Hkey. induction obj as [|[k v] obj IH]; cbn.
  - intros _. split; [done|]. rewrite Hkey. by intros ? ?%elem_of_nil.
  - intros [Hord Hk].
    destruct (array_index k) as [n0|] eqn:Hidx;
      [destruct (n0 <? n)%N eqn:Hlt|]; cbn.
    + split; [by apply IH|]. rewrite Hidx.
      intros k' Hk'. rewrite keys_create_index in Hk'.
      apply elem_of_cons in Hk' as [->|Hk']; [|by apply Hk].
      rewrite Hkey. apply N.ltb_lt in Hlt. lia.
    + split; [split; [done | by rewrite Hidx]|]. rewrite Hkey.
      apply N.ltb_ge in Hlt.
      intros k' [->|Hk']%elem_of_cons.
      * by rewrite Hidx.
      * specialize (Hk k' Hk'). destruct (array_index k'); [lia | done].
    + split; [split; [done | by rewrite Hidx]|]. rewrite Hkey.
      intros k' [->|Hk']%elem_of_cons.
      * by rewrite Hidx.
      * by rewrite (Hk k' Hk').
Qed.

Lemma js_ordered_assign key value obj :
  js_ordered obj.*1 → js_ordered (assign_key key value obj).*1.
Proof.
  intros Hord. unfold assign_key. destruct (own_key key obj).
  - by rewrite keys_update.
  - unfold create_key. destruct (array_index key) as [n|] eqn:Hidx.
    + by apply js_ordered_create_index.
    + rewrite fmap_app. by apply js_ordered_snoc.
Qed.

(** ** Arrays of listeners *)

Lemma splice_first_split l array :
  l ∈ array →
  ∃ pre post,
    array = pre ++ (l :: post) ∧ (l ∉ pre)
    ∧ splice_first l array = pre ++ post.
Proof.
  induction array as [|y array IH]; [by intros ?%elem_of_nil|].
  cbn. destruct (decide (y = l)) as [->|Hne].
  - intros _. exists [], array. split; [done|]. split; [|done].
    apply not_elem_of_nil.
  - intros [?|Hin]%elem_of_cons; [congruence|].
    destruct (IH Hin) as (pre & post & -> & Hpre & ->).
    exists (y :: pre), post. split; [done|]. split; [|done].
    rewrite not_elem_of_cons. split; [congruence | done].
Qed.

Lemma splice_first_sublist l array : splice_first l array ⊆ array.
Proof.
  induction array as [|y array IH]; cbn; [done|].
  destruct (decide (y = l)); intros x Hx.
  - apply elem_of_cons. by right.
  - apply elem_of_cons in Hx as [->|Hx]; apply elem_of_cons; auto.
Qed.

Lemma splice_first_NoDup l array :
  NoDup array → NoDup (splice_first l array).
Proof.
  induction array as [|y array IH]; cbn; [done|].
  intros [Hy Hnd]%NoDup_cons. destruct (decide (y = l)); [done|].
  apply NoDup_cons. split; [|by apply IH].
  intros Hin. by apply Hy, (splice_first_sublist l).
Qed.

Lemma splice_first_snoc l array :
  l ∉ array → splice_first l (array ++ [l]) = array.
Proof.
  induction array as [|y array IH]; cbn.
  - intros _. by rewrite decide_True.
  - intros [Hne Hout]%not_elem_of_cons.
    rewrite decide_False by congruence. by rewrite IH.
Qed.

(** ** Reading [mediaQueries[key]] *)

Lemma get_key_Own key obj array :
  get_key key obj = Own array ↔ own_key key obj = Some array.
Proof.
  unfold get_key. destruct (own_key key obj);
    [|case_decide]; split; congruence.
Qed.

Lemma get_key_Inherited key obj :
  get_key key obj = Inherited ↔ key ∈ inherited_names ∧ key ∉ obj.*1.
Proof.
  unfold get_key. rewrite <- own_key_None.
  destruct (own_key key obj); [|case_decide]; split; try done;
    intros [? ?]; done.
Qed.

Lemma get_key_Undefined key obj :
  get_key key obj = Undefined ↔ (key ∉ inherited_names) ∧ (key ∉ obj.*1).
Proof.
  unfold get_key. rewrite <- own_key_None.
  destruct (own_key key obj); [|case_decide]; split; try done;
    intros [? ?]; done.
Qed.

Lemma get_assign_eq key value obj :
  get_key key (assign_key key value obj) = Own value.
Proof. apply get_key_Own, own_assign_eq. Qed.

Lemma get_assign_ne key key' value obj :
  key' ≠ key → get_key key' (assign_key key value obj) = get_key key' obj.
Proof. intros Hne. unfold get_key. by rewrite own_assign_ne. Qed.

(** ** What stays true of the registry *)

Lemma registry_wf_assign key value obj :
  registry_wf obj → NoDup value → registry_wf (assign_key key value obj).
Proof.
  intros [Hkeys Hvals] Hnd. split.
  - destruct (decide (key ∈ obj.*1)) as [Hin|Hout].
    + by rewrite keys_assign_known.
    + destruct (keys_assign_new key value obj Hout) as [Hp _].
      rewrite Hp. by apply NoDup_cons.
  - intros k v. destruct (decide (k = key)) as [->|Hne].
    + rewrite own_assign_eq. by intros [= <-].
    + rewrite own_assign_ne by done. apply Hvals.
Qed.

Lemma keys_assign_sub key value obj k :
  k ∈ (assign_key key value obj).*1 → k = key ∨ k ∈ obj.*1.
Proof.
  destruct (decide (key ∈ obj.*1)) as [Hin|Hout].
  - rewrite keys_assign_known by done. by right.
  - destruct (keys_assign_new key value obj Hout) as [Hp _].
    rewrite Hp. by intros ?%elem_of_cons.
Qed.

Lemma registry_inv_assign key value obj :
  registry_inv obj → NoDup value →
  key ∉ inherited_names ∨ key ∈ obj.*1 →
  registry_inv (assign_key key value obj).
Proof.
  intros (Hwf & Hord & Hinh) Hnd Hkey. split; [|split].
  - by apply registry_wf_assign.
  - by apply js_ordered_assign.
  - intros k Hk [->|Hin]%keys_assign_sub; [|by eapply Hinh].
    destruct Hkey as [?|Hin]; [done | by eapply Hinh].
Qed.

Lemma registry_inv_nil : registry_inv (@nil (string * list L)).
Proof.
  split; [split; [apply NoDup_nil_2 | done]|]. split; [done|].
  intros ? _. apply not_elem_of_nil.
Qed.

(** ** The methods, unfolded *)

Lemma getListeners_Returns q m ls :
  getListeners q m = Returns ls ↔
  own_key q (mediaQueries m) = Some ls
  ∨ (ls = [] ∧ (q ∉ inherited_names) ∧ (q ∉ getMediaQueries m)).
Proof.
  unfold getListeners, getMediaQueries.
  destruct (get_key q (mediaQueries m)) as [query| |] eqn:Hq.
  - apply get_key_Own in Hq. rewrite Hq. split.
    + intros [= ->]. by left.
    + intros [[= ->]|(_ & _ & Hout)]; [done|].
      destruct Hout. apply own_key_is_Some. by eexists.
  - apply get_key_Inherited in Hq as [Hin Hout%own_key_None].
    rewrite Hout. split; [done|]. by intros [?|(_ & ? & _)].
  - apply get_key_Undefined in Hq as [Hin Hout]. split.
    + intros [= <-]. by right.
    + apply own_key_None in Hout. rewrite Hout.
      by intros [?|(-> & _)].
Qed.

Lemma getListeners_Throws q m :
  getListeners q m = ThrowsTypeError ↔
  q ∈ inherited_names ∧ q ∉ getMediaQueries m.
Proof.
  unfold getListeners, getMediaQueries. rewrite <- get_key_Inherited.
  by destruct (get_key q (mediaQueries m)).
Qed.

Lemma getListeners_cases q m :
  (q ∈ inherited_names ∧ (q ∉ getMediaQueries m)
   ∧ getListeners q m = ThrowsTypeError)
  ∨ ((q ∉ inherited_names ∨ q ∈ getMediaQueries m)
     ∧ ∃ ls, getListeners q m = Returns ls).
Proof.
  destruct (getListeners q m) as [ls|] eqn:Hq.
  - right. split; [|by eexists].
    apply getListeners_Returns in Hq as [Hq|(_ & ? & _)]; [|by left].
    right. apply own_key_is_Some. by eexists.
  - left. by apply getListeners_Throws in Hq as [? ?].
Qed.

Lemma getListeners_listed q m ls :
  getListeners q m = Returns ls → q ∈ getMediaQueries m →
  own_key q (mediaQueries m) = Some ls.
Proof.
  intros [?|(_ & _ & ?)]%getListeners_Returns; done.
Qed.

Lemma getListeners_assign_eq q value obj cur :
  getListeners q (mk (assign_key q value obj) cur) = Returns value.
Proof. unfold getListeners. cbn. by rewrite get_assign_eq. Qed.

Lemma getListeners_assign_ne q q' value m cur :
  q' ≠ q →
  getListeners q' (mk (assign_key q value (mediaQueries m)) cur)
  = getListeners q' m.
Proof. intros Hne. unfold getListeners. cbn. by rewrite get_assign_ne. Qed.

Lemma addListener_throws q l m :
  getListeners q m = ThrowsTypeError → addListener q l m = ThrowsTypeError.
Proof.
  unfold getListeners, addListener.
  destruct (get_key q (mediaQueries m)) eqn:Hq; try done.
  by rewrite Hq.
Qed.

Lemma addListener_unfold q l m ls :
  getListeners q m = Returns ls →
  addListener q l m
  = Returns (mk (assign_key q (if decide (l ∈ ls) then ls else ls ++ [l])
                   (mediaQueries m))
                (currentMediaQuery m)).
Proof.
  destruct m as [obj cur]. unfold getListeners, addListener.
  cbn [mediaQueries currentMediaQuery].
  destruct (get_key q obj) as [query| |] eqn:Hq; [| done |].
  - intros [= ->]. rewrite Hq. apply get_key_Own in Hq.
    destruct (decide (l ∈ ls)); [|done]. by rewrite assign_same.
  - intros [= <-]. rewrite get_assign_eq.
    rewrite !decide_False by apply not_elem_of_nil.
    by rewrite assign_assign.
Qed.

Lemma removeListener_throws q l m :
  getListeners q m = ThrowsTypeError →
  removeListener q l m = ThrowsTypeError.
Proof.
  unfold getListeners, removeListener.
  by destruct (get_key q (mediaQueries m)).
Qed.

Lemma removeListener_out q l m ls :
  getListeners q m = Returns ls → l ∉ ls → removeListener q l m = Returns m.
Proof.
  unfold getListeners, removeListener.
  destruct (get_key q (mediaQueries m)) as [query| |]; try done.
  intros [= ->] Hout. by rewrite decide_False.
Qed.

Lemma removeListener_in q l m ls :
  getListeners q m = Returns ls → l ∈ ls →
  q ∈ getMediaQueries m
  ∧ removeListener q l m
    = Returns (mk (assign_key q (splice_first l ls) (mediaQueries m))
                  (currentMediaQuery m)).
Proof.
  unfold getListeners, removeListener, getMediaQueries.
  destruct (get_key q (mediaQueries m)) as [query| |] eqn:Hq; [| done |].
  - intros [= ->] Hin. rewrite decide_True by done. split; [|done].
    apply own_key_is_Some. apply get_key_Own in Hq. by eexists.
  - by intros [= <-] ?%elem_of_nil.
Qed.

Lemma useMediaQuery_fst q m :
  (useMediaQuery q m).1 = mk (mediaQueries m) (Some q).
Proof.
  unfold useMediaQuery. cbn [mediaQueries]. by destruct (mediaQueries m).
Qed.

Lemma useMediaQuery_snd q m :
  (useMediaQuery q m).2
  = '(_, value) ← mediaQueries m;
    (λ l, (l, mkEvent (bool_decide (q ∈ getMediaQueries m
                                    ∨ q ∈ inherited_names)) q)) <$> value.
Proof.
  unfold useMediaQuery, getMediaQueries. cbn [mediaQueries].
  destruct (mediaQueries m) as [|e obj] eqn:Hobj; [done|]. cbn [snd].
  destruct (get_key q (e :: obj)) as [query| |] eqn:Hq.
  - rewrite bool_decide_eq_true_2; [done|]. left.
    apply own_key_is_Some. apply get_key_Own in Hq. by eexists.
  - rewrite bool_decide_eq_true_2; [done|]. right.
    by apply get_key_Inherited in Hq as [? _].
  - rewrite bool_decide_eq_false_2; [done|].
    apply get_key_Undefined in Hq as [? ?]. by intros [?|?].
Qed.

Lemma addListener_inv q l m :
  registry_inv (mediaQueries m) →
  registry_inv (mediaQueries (after m (addListener q l m))).
Proof.
  intros Hinv. destruct (getListeners_cases q m) as [(_ & _ & Hq)|[Hk [ls Hq]]].
  - by rewrite (addListener_throws _ _ _ Hq).
  - rewrite (addListener_unfold _ _ _ _ Hq). cbn [after mediaQueries].
    assert (NoDup ls) as Hls.
    { apply getListeners_Returns in Hq as [Hq|(-> & _)];
        [|apply NoDup_nil_2].
      destruct Hinv as [[_ Hvals] _]. by eapply Hvals. }
    apply registry_inv_assign; [done | | done].
    destruct (decide (l ∈ ls)); [done|].
    apply NoDup_app. split; [done|]. split; [|apply NoDup_singleton].
    by intros x Hx ->%list_elem_of_singleton.
Qed.

Lemma removeListener_inv q l m :
  registry_inv (mediaQueries m) →
  registry_inv (mediaQueries (after m (removeListener q l m))).
Proof.
  intros Hinv. destruct (getListeners_cases q m) as [(_ & _ & Hq)|[_ [ls Hq]]].
  - by rewrite (removeListener_throws _ _ _ Hq).
  - destruct (decide (l ∈ ls)) as [Hin|Hout].
    + destruct (removeListener_in _ _ _ _ Hq Hin) as [Hk ->].
      cbn [after mediaQueries].
      apply registry_inv_assign; [done | | by right].
      apply splice_first_NoDup. destruct Hinv as [[_ Hvals] _].
      eapply Hvals. by apply getListeners_listed.
    + by rewrite (removeListener_out _ _ _ _ Hq Hout).
Qed.

Lemma step_inv (o : Op L) m :
  registry_inv (mediaQueries m) → registry_inv (mediaQueries (step o m)).
Proof.
  intros Hinv. destruct o as [q ty l|q ty l|q|]; cbn [step].
  - unfold addEventListener. case_decide; [by apply addListener_inv | done].
  - unfold removeEventListener.
    case_decide; [by apply removeListener_inv | done].
  - by rewrite useMediaQuery_fst.
  - apply registry_inv_nil.
Qed.

Lemma run_inv (os : list (Op L)) m :
  registry_inv (mediaQueries m) → registry_inv (mediaQueries (run os m)).
Proof.
  unfold run. revert m. induction os as [|o os IH]; intros m Hm; [done|].
  cbn [foldl]. by apply IH, step_inv.
Qed.

Lemma add_remove_unfold q l m ls :
  getListeners q m = Returns ls → l ∉ ls →
  ∃ m1,
    addListener q l m = Returns m1
    ∧ removeListener q l m1
      = Returns (mk (assign_key q ls (mediaQueries m)) (currentMediaQuery m)).
Proof.
  intros Hq Hout. eexists. split; [by apply addListener_unfold|].
  rewrite decide_False by done.
  edestruct (removeListener_in q l) as [_ ->].
  - apply getListeners_assign_eq.
  - apply elem_of_app. right. by apply list_elem_of_singleton.
  - cbn [mediaQueries currentMediaQuery].
    by rewrite assign_assign, splice_first_snoc.
Qed.

(** X11. Whatever a test does to the double (adding and removing
    listeners under any event type, using media queries, clearing), no
    media query is listed twice and no listener is registered twice under
    one media query; [getListeners] throws for the property names of
    [Object.prototype] and for no other media query, and none of these
    names is ever listed; and the media queries are listed in the order
    of the keys of a JavaScript object, array indices first. *)
Theorem double_registers_once (os : list (Op L)) :
  NoDup (getMediaQueries (run os new))
  ∧ (∀ q, match getListeners q (run os new) with
          | Returns ls => NoDup ls ∧ q ∉ inherited_names
          | ThrowsTypeError => q ∈ inherited_names
          end)
  ∧ (∀ q, q ∈ inherited_names → q ∉ getMediaQueries (run os new))
  ∧ js_ordered (getMediaQueries (run os new)).
Proof.
  destruct (run_inv os new registry_inv_nil) as ([Hkeys Hvals] & Hord & Hinh).
  split; [done|]. split; [|by split].
  intros q. destruct (getListeners q _) as [ls|] eqn:Hq.
  - apply getListeners_Returns in Hq as [Hq|(-> & ? & _)].
    + split; [by eapply Hvals|]. intros Hin. apply (Hinh q Hin).
      apply own_key_is_Some. by eexists.
    + split; [apply NoDup_nil_2 | done].
  - by apply getListeners_Throws in Hq as [? _].
Qed.

(** X12. [addListener] throws a [TypeError] when the media query is a
    property name of [Object.prototype] such as [toString] (and not
    listed).  Otherwise it puts the listener last under its media query
    unless it is already there, in which case nothing changes; it lists
    the media query when it was not listed, last unless the media query
    is an array index such as [10], the others keeping their order, and
    always in the order of the keys of a JavaScript object; listeners
    under other media queries and the current media query are untouched;
    adding twice is adding once. *)
Theorem addListener_registers q l m :
  (q ∈ inherited_names ∧ q ∉ getMediaQueries m →
   addListener q l m = ThrowsTypeError)
  ∧ (q ∉ inherited_names ∨ q ∈ getMediaQueries m →
     ∃ ls m',
       getListeners q m = Returns ls
       ∧ addListener q l m = Returns m'
       ∧ getListeners q m'
         = Returns (if decide (l ∈ ls) then ls else ls ++ [l])
       ∧ (∀ q', q' ≠ q → getListeners q' m' = getListeners q' m)
       ∧ (q ∈ getMediaQueries m → getMediaQueries m' = getMediaQueries m)
       ∧ (q ∉ getMediaQueries m →
          getMediaQueries m' ≡ₚ q :: getMediaQueries m
          ∧ filter (λ k, k ≠ q) (getMediaQueries m') = getMediaQueries m
          ∧ (array_index q = None →
             getMediaQueries m' = getMediaQueries m ++ [q]))
       ∧ (js_ordered (getMediaQueries m) → js_ordered (getMediaQueries m'))
       ∧ addListener q l m' = Returns m'
       ∧ currentMediaQuery m' = currentMediaQuery m).
Proof.
  split.
  - intros Hq%getListeners_Throws. by apply addListener_throws.
  - intros Hk.
    destruct (getListeners_cases q m) as [(Hin & Hout & _)|[_ [ls Hq]]];
      [by destruct Hk|].
    eexists ls, _. split; [done|].
    split; [by apply addListener_unfold|].
    assert (∀ cur, getListeners q
              (mk (assign_key q (if decide (l ∈ ls) then ls else ls ++ [l])
                     (mediaQueries m)) cur)
            = Returns (if decide (l ∈ ls) then ls else ls ++ [l])) as Hq'
      by (intros cur; apply getListeners_assign_eq).
    split; [apply Hq'|].
    split; [by intros q' Hne; apply getListeners_assign_ne|].
    unfold getMediaQueries. cbn [mediaQueries currentMediaQuery].
    split; [by apply keys_assign_known|].
    split; [by apply keys_assign_new|].
    split; [by apply js_ordered_assign|]. split; [|done].
    rewrite (addListener_unfold _ _ _ _ (Hq' _)).
    cbn [mediaQueries currentMediaQuery]. rewrite assign_assign.
    do 3 f_equal. case_decide as Hin; [by rewrite decide_True|].
    rewrite decide_True; [done|].
    apply elem_of_app. right. by apply list_elem_of_singleton.
Qed.

(** X13. [removeListener] throws a [TypeError] when the media query is a
    property name of [Object.prototype] (and not listed).  Otherwise it
    does nothing when the listener is not registered under the media
    query (in particular when the media query is unknown), and else takes
    out the first registration of the listener and keeps the others in
    order.  Listeners under other media queries are untouched, and the
    media queries listed stay listed, in the same order, the one whose
    last listener went included. *)
Theorem removeListener_unregisters q l m :
  (q ∈ inherited_names ∧ q ∉ getMediaQueries m →
   removeListener q l m = ThrowsTypeError)
  ∧ (q ∉ inherited_names ∨ q ∈ getMediaQueries m →
     ∃ ls m',
       getListeners q m = Returns ls
       ∧ removeListener q l m = Returns m'
       ∧ (l ∉ ls → m' = m)
       ∧ (l ∈ ls →
          ∃ pre post,
            ls = pre ++ (l :: post) ∧ (l ∉ pre)
            ∧ getListeners q m' = Returns (pre ++ post))
       ∧ (∀ q', q' ≠ q → getListeners q' m' = getListeners q' m)
       ∧ getMediaQueries m' = getMediaQueries m).
Proof.
  split.
  - intros Hq%getListeners_Throws. by apply removeListener_throws.
  - intros Hk.
    destruct (getListeners_cases q m) as [(Hin & Hout & _)|[_ [ls Hq]]];
      [by destruct Hk|].
    destruct (decide (l ∈ ls)) as [Hin|Hout].
    + destruct (removeListener_in _ _ _ _ Hq Hin) as [Hlisted Hrm].
      eexists ls, _. split; [done|]. split; [exact Hrm|].
      split; [done|]. split; [|split].
      * intros _. destruct (splice_first_split _ _ Hin)
          as (pre & post & Hls & Hpre & Hsp).
        exists pre, post. split; [done|]. split; [done|].
        rewrite <- Hsp. apply getListeners_assign_eq.
      * intros q' Hne. by apply getListeners_assign_ne.
      * unfold getMediaQueries. cbn [mediaQueries].
        by apply keys_assign_known.
    + exists ls, m. split; [done|].
      split; [by eapply removeListener_out|]. done.
Qed.

(** X14. Removing a listener just added, when it was not registered
    before, gives the double back as it was if the media query was
    listed; if it was not, the media query stays listed, without
    listeners (last, unless it is an array index), so that
    [useMediaQuery] takes it for a known one: every listener it calls is
    told the media query matches. *)
Theorem add_then_remove q l m ls :
  getListeners q m = Returns ls →
  l ∉ ls →
  ∃ m1 m2,
    addListener q l m = Returns m1
    ∧ removeListener q l m1 = Returns m2
    ∧ (q ∈ getMediaQueries m → m2 = m)
    ∧ (q ∉ getMediaQueries m →
       m2 = mk (create_key q [] (mediaQueries m)) (currentMediaQuery m)
       ∧ getMediaQueries m2 ≡ₚ q :: getMediaQueries m
       ∧ (array_index q = None →
          m2 = mk (mediaQueries m ++ [(q, [])]) (currentMediaQuery m)))
    ∧ (∀ q', getListeners q' m2 = getListeners q' m)
    ∧ (∀ c, c ∈ (useMediaQuery q m2).2 → ev_matches c.2 = true).
Proof.
  intros Hq Hout.
  destruct (add_remove_unfold _ _ _ _ Hq Hout) as (m1 & Hadd & Hrm).
  eexists m1, _. split; [done|]. split; [exact Hrm|].
  split; [|split; [|split]].
  - intros Hin. rewrite assign_same by by apply getListeners_listed.
    by destruct m.
  - intros Hnew.
    apply getListeners_Returns in Hq as [Hq|(-> & _)].
    { destruct Hnew. apply own_key_is_Some. by eexists. }
    assert (assign_key q [] (mediaQueries m)
            = create_key q [] (mediaQueries m)) as ->.
    { unfold assign_key. by apply own_key_None in Hnew as ->. }
    split; [done|]. split; [apply keys_create|].
    intros Hidx. unfold create_key. by rewrite Hidx.
  - intros q'. destruct (decide (q' = q)) as [->|Hne].
    + by rewrite getListeners_assign_eq.
    + by rewrite getListeners_assign_ne.
  - intros c Hc. rewrite useMediaQuery_snd in Hc.
    apply list_elem_of_bind in Hc as ([k value] & Hc & _).
    apply list_elem_of_fmap in Hc as (? & -> & _). cbn.
    apply bool_decide_eq_true. left. apply own_key_is_Some.
    rewrite own_assign_eq. by eexists.
Qed.

(** X15. [useMediaQuery] makes the media query the current one and
    leaves the registry alone; it calls every listener once for each
    media query it is registered under, media queries in the order
    [getMediaQueries] lists them and listeners in the order they were
    added; and it hands all of them the same event, whose [matches] says
    whether the media query used is listed or is a property name of
    [Object.prototype], not whether it is the one the listener was
    registered under.  With nothing listed nobody is called. *)
Theorem useMediaQuery_calls q m :
  mediaQueries (useMediaQuery q m).1 = mediaQueries m
  ∧ currentMediaQuery (useMediaQuery q m).1 = Some q
  ∧ (useMediaQuery q m).2.*1 = mjoin (mediaQueries m).*2
  ∧ ∀ c, c ∈ (useMediaQuery q m).2 →
         c.2 = mkEvent (bool_decide (q ∈ getMediaQueries m
                                     ∨ q ∈ inherited_names)) q.
Proof.
  rewrite useMediaQuery_fst, useMediaQuery_snd.
  split; [done|]. split; [done|]. split.
  - generalize (mkEvent (bool_decide (q ∈ getMediaQueries m
                                      ∨ q ∈ inherited_names)) q).
    intros ev. induction (mediaQueries m) as [|[k v] obj IH]; [done|].
    cbn. rewrite fmap_app, IH. f_equal.
    rewrite <- list_fmap_compose. apply list_fmap_id.
  - intros c ([k v] & Hc & _)%list_elem_of_bind.
    by apply list_elem_of_fmap in Hc as (? & -> & _).
Qed.

(** X16. The double lets one media query match at a time: after
    [useMediaQuery(q)] it is [q] and no other; before the first use none
    does; after [clear] only the empty string does.  So on a page whose
    [matchMedia] is the double's, with the guard open, [getPrefersMode]
    answers dark when the current media query is the dark one, light when
    it is the light one, and unset otherwise. *)
Theorem double_one_query_at_a_time m (env : Env) :
  guard_open env = true →
  getPrefersMode (with_mock m env)
  = Ok (match currentMediaQuery m with
        | Some q =>
            if decide (q = darkQuery) then Some Dark
            else if decide (q = lightQuery) then Some Light
            else None
        | None => None
        end, with_mock m env)
  ∧ (∀ q1 q2, matches q1 m = true → matches q2 m = true → q1 = q2)
  ∧ (∀ q q', matches q' (useMediaQuery q m).1 = bool_decide (q' = q))
  ∧ (∀ q, matches q (@new L) = false)
  ∧ (∀ q, matches q (clear m) = bool_decide (q = "")).
Proof.
  intros Hg. split; [|split; [|split; [|split]]].
  - rewrite (getPrefersMode_open _ (λ query, matches query m)) by done.
    unfold matches. destruct (currentMediaQuery m) as [q|].
    + repeat case_bool_decide; repeat case_decide; congruence.
    + by repeat case_bool_decide.
  - unfold matches. intros q1 q2 H1%bool_decide_eq_true H2%bool_decide_eq_true.
    congruence.
  - intros q q'. unfold matches. rewrite useMediaQuery_fst.
    cbn [currentMediaQuery]. apply bool_decide_ext; split; congruence.
  - done.
  - intros q. unfold matches, clear. cbn [currentMediaQuery].
    apply bool_decide_ext; split; congruence.
Qed.

(** X17. When the dark media query is the only one listed, as it is once
    the constructor of one instance has registered its callback on a
    cleared double, [useMediaQuery(q)] hands every listener, the callback
    among them, an event whose [matches] is true when [q] is the dark media
    query or a property name of [Object.prototype] such as [toString],
    and false for every other string, the light media query included; the
    callback, run on that event in a display context for an instance
    without explicit choice, leaves the getter reading dark in the first
    case and light in the second. *)
Theorem double_drives_instance (cb : L) q m ls (this : DarkMode) (env : Env) :
  display_context env →
  modeStore this = None →
  getMediaQueries m = [darkQuery] →
  getListeners darkQuery m = Returns ls →
  cb ∈ ls →
  let told := bool_decide (q = darkQuery ∨ q ∈ inherited_names) in
  (cb, mkEvent told q) ∈ (useMediaQuery q m).2
  ∧ (∀ c, c ∈ (useMediaQuery q m).2 → c.2 = mkEvent told q)
  ∧ ∃ this' env',
      on_change told this env = Ok (this', env')
      ∧ mode this' = if told then Dark else Light.
Proof.
  intros [Hg _ _ [el Hel]] Hunset Hkeys Hls Hcb told.
  rewrite useMediaQuery_snd.
  replace (bool_decide (q ∈ getMediaQueries m ∨ q ∈ inherited_names))
    with told
    by (subst told; rewrite Hkeys; apply bool_decide_ext;
        by rewrite list_elem_of_singleton).
  split; [|split].
  - apply list_elem_of_bind. exists (darkQuery, ls). split.
    + apply list_elem_of_fmap. by exists cb.
    + apply own_key_elem, getListeners_listed; [done|].
      rewrite Hkeys. by apply list_elem_of_singleton.
  - intros c ([k v] & Hc & _)%list_elem_of_bind.
    by apply list_elem_of_fmap in Hc as (? & -> & _).
  - rewrite (on_change_open _ _ _ _ Hg Hel). eexists _, _.
    split; [done|]. unfold mode. cbn. rewrite Hunset.
    by destruct told.
Qed.

End Double.

(** The media queries of a test are listed as the keys of a JavaScript
    object are, and [toString] is taken for a known media query. *)
Lemma double_examples :
  let add q := MatchMediaMock.Add q "change" 0 in
  MatchMediaMock.getMediaQueries
    (MatchMediaMock.run [add "b"; add "10"; add "2"] MatchMediaMock.new)
  = ["2"; "10"; "b"]
  ∧ MatchMediaMock.getMediaQueries
      (MatchMediaMock.run [add "b"; add "01"; add "4294967295"; add "0"]
         MatchMediaMock.new)
    = ["0"; "b"; "01"; "4294967295"]
  ∧ (MatchMediaMock.useMediaQuery "toString"
       (MatchMediaMock.run [add darkQuery] MatchMediaMock.new)).2
    = [(0, MatchMediaMock.mkEvent true "toString")]
  ∧ (MatchMediaMock.useMediaQuery lightQuery
       (MatchMediaMock.run [add darkQuery] MatchMediaMock.new)).2
    = [(0, MatchMediaMock.mkEvent false lightQuery)]
  ∧ MatchMediaMock.addListener "toString" 0 MatchMediaMock.new
    = MatchMediaMock.ThrowsTypeError
  ∧ MatchMediaMock.removeListener "valueOf" 0 MatchMediaMock.new
    = MatchMediaMock.ThrowsTypeError
  ∧ MatchMediaMock.getListeners "constructor" (@MatchMediaMock.new nat)
    = MatchMediaMock.ThrowsTypeError.
Proof. cbn zeta. repeat split; vm_compute; reflexivity. Qed.

Lemma add_then_remove_witness :
  let m := @MatchMediaMock.new nat in
  MatchMediaMock.getListeners darkQuery m = MatchMediaMock.Returns []
  ∧ (0 ∉ [])
  ∧ ∃ m1 m2,
      MatchMediaMock.addListener darkQuery 0 m = MatchMediaMock.Returns m1
      ∧ MatchMediaMock.removeListener darkQuery 0 m1
        = MatchMediaMock.Returns m2
      ∧ (darkQuery ∈ MatchMediaMock.getMediaQueries m → m2 = m)
      ∧ (darkQuery ∉ MatchMediaMock.getMediaQueries m →
         m2 = MatchMediaMock.mk
                (MatchMediaMock.create_key darkQuery []
                   (MatchMediaMock.mediaQueries m))
                (MatchMediaMock.currentMediaQuery m)
         ∧ MatchMediaMock.getMediaQueries m2
           ≡ₚ darkQuery :: MatchMediaMock.getMediaQueries m
         ∧ (MatchMediaMock.array_index darkQuery = None →
            m2 = MatchMediaMock.mk
                   (MatchMediaMock.mediaQueries m ++ [(darkQuery, [])])
                   (MatchMediaMock.currentMediaQuery m)))
      ∧ (∀ q', MatchMediaMock.getListeners q' m2
               = MatchMediaMock.getListeners q' m)
      ∧ (∀ c, c ∈ (MatchMediaMock.useMediaQuery darkQuery m2).2 →
              MatchMediaMock.ev_matches c.2 = true).
Proof.
  cbn zeta.
  assert (0 ∉ @nil nat) as Hout by apply not_elem_of_nil.
  split; [reflexivity|]. split; [exact Hout|].
  exact (add_then_remove darkQuery 0 MatchMediaMock.new [] eq_refl Hout).
Defined.

Lemma double_one_query_at_a_time_witness :
  let m := (MatchMediaMock.useMediaQuery lightQuery
              (@MatchMediaMock.new nat)).1 in
  guard_open (page ∅ false false) = true
  ∧ getPrefersMode (with_mock m (page ∅ false false))
    = Ok (match MatchMediaMock.currentMediaQuery m with
          | Some q =>
              if decide (q = darkQuery) then Some Dark
              else if decide (q = lightQuery) then Some Light
              else None
          | None => None
          end, with_mock m (page ∅ false false))
  ∧ (∀ q1 q2,
       MatchMediaMock.matches q1 m = true →
       MatchMediaMock.matches q2 m = true → q1 = q2)
  ∧ (∀ q q',
       MatchMediaMock.matches q' (MatchMediaMock.useMediaQuery q m).1
       = bool_decide (q' = q))
  ∧ (∀ q, MatchMediaMock.matches q (@MatchMediaMock.new nat) = false)
  ∧ (∀ q, MatchMediaMock.matches q (MatchMediaMock.clear m)
          = bool_decide (q = "")).
Proof.
  cbn zeta. split; [reflexivity|].
  exact (double_one_query_at_a_time
           (MatchMediaMock.useMediaQuery lightQuery
              (@MatchMediaMock.new nat)).1
           (page ∅ false false) eq_refl).
Defined.

Lemma double_drives_instance_witness :
  let m :=
    MatchMediaMock.run
      [MatchMediaMock.Clear; MatchMediaMock.Add darkQuery "change" 0]
      (@MatchMediaMock.new nat) in
  let told := bool_decide (lightQuery = darkQuery
                           ∨ lightQuery ∈ MatchMediaMock.inherited_names) in
  display_context (page ∅ false false)
  ∧ modeStore (instance None None) = None
  ∧ MatchMediaMock.getMediaQueries m = [darkQuery]
  ∧ MatchMediaMock.getListeners darkQuery m = MatchMediaMock.Returns [0]
  ∧ 0 ∈ [0]
  ∧ (0, MatchMediaMock.mkEvent told lightQuery)
    ∈ (MatchMediaMock.useMediaQuery lightQuery m).2
  ∧ (∀ c, c ∈ (MatchMediaMock.useMediaQuery lightQuery m).2 →
          c.2 = MatchMediaMock.mkEvent told lightQuery)
  ∧ ∃ this' env',
      on_change told (instance None None) (page ∅ false false)
      = Ok (this', env')
      ∧ mode this' = if told then Dark else Light.
Proof.
  cbn zeta.
  assert (display_context (page ∅ false false)) as Hpage.
  { split; [reflexivity | eexists; reflexivity ..]. }
  assert (0 ∈ [0]) as Hcb by (apply list_elem_of_singleton; reflexivity).
  split; [exact Hpage|]. split; [reflexivity|]. split; [reflexivity|].
  split; [reflexivity|]. split; [exact Hcb|].
  exact (double_drives_instance 0 lightQuery
           (MatchMediaMock.run
              [MatchMediaMock.Clear; MatchMediaMock.Add darkQuery "change" 0]
              (@MatchMediaMock.new nat))
           [0] (instance None None) (page ∅ false false)
           Hpage eq_refl eq_refl eq_refl Hcb).
Defined.
